(** * Timings and MultiTimings of vitess go/stats/timings.go

    A shallow embedding of the timing registry: a [Timings] owns a map
    from category to [Histogram] together with two atomic int64 totals; a
    [MultiTimings] joins several dimension values into one compound
    category and delegates to an embedded [Timings].

    Go values are modelled as they are: [int64] as [Z] with its
    two's-complement wrap-around written out, [map[string]*Histogram] as
    [gmap string Histogram] (a map value is the histogram the pointer
    designates), strings as [String.string]. A panic of the Go code is an
    explicit outcome of the call. *)

From Stdlib Require Import ZArith Lia Ascii String List Sorting.Sorted.
From stdpp Require Import base gmap strings list.

Open Scope Z_scope.

(* ------------------------------------------------------------------ *)
(** ** Go integers *)

Definition int64_min : Z := - 2 ^ 63.
Definition int64_max : Z := 2 ^ 63 - 1.

(** Two's-complement wrap-around of a Go [int64] addition. *)
Definition wrap64 (z : Z) : Z := (z + 2 ^ 63) mod 2 ^ 64 - 2 ^ 63.

Definition in_int64 (z : Z) : Prop := int64_min <= z <= int64_max.

(** [time.Duration.Milliseconds]: [int64(d) / 1e6], Go division
    truncates toward zero. *)
Definition Milliseconds (d : Z) : Z := Z.quot d 1000000.

(** [fmt.Sprintf("%d", v)] for an [int64]: decimal digits, a leading
    minus sign for a negative value. An [int64] has at most 19 digits, so
    a fuel of 20 digit steps is never exhausted on one. *)
Definition digit_char (d : Z) : ascii := ascii_of_nat (48 + Z.to_nat d).

Fixpoint udec (fuel : nat) (n : Z) : string :=
  match fuel with
  | O => EmptyString
  | S fuel' =>
      if n <? 10 then String (digit_char n) EmptyString
      else (udec fuel' (n / 10) ++ String (digit_char (n mod 10)) EmptyString)%string
  end.

Definition Sprintf_d (v : Z) : string :=
  if v <? 0 then ("-" ++ udec 20 (- v))%string else udec 20 v.

(* ------------------------------------------------------------------ *)
(** ** Bucket cutoffs and labels *)

(** [var bucketCutoffs = []int64{5e5, 1e6, 5e6, 1e7, 5e7, 1e8, 5e8, 1e9, 5e9, 1e10}] *)
Definition bucketCutoffs : list Z :=
  [5 * 10 ^ 5; 10 ^ 6; 5 * 10 ^ 6; 10 ^ 7; 5 * 10 ^ 7; 10 ^ 8;
   5 * 10 ^ 8; 10 ^ 9; 5 * 10 ^ 9; 10 ^ 10].

(** [init]: [bucketLabels] has one more slot than [bucketCutoffs]; slot
    [i] receives [fmt.Sprintf("%d", bucketCutoffs[i])] and the last slot
    receives ["inf"]. *)
Fixpoint fill_labels (i : nat) (cs : list Z) (ls : list string) : list string :=
  match cs with
  | [] => ls
  | v :: cs' => fill_labels (S i) cs' (<[i := Sprintf_d v]> ls)
  end.

Definition bucketLabels : list string :=
  let ls := List.repeat EmptyString (length bucketCutoffs + 1) in
  let ls := fill_labels 0 bucketCutoffs ls in
  <[pred (length ls) := "inf"%string]> ls.

(* ------------------------------------------------------------------ *)
(** ** Histogram *)

(** Modelled from the spec: [Histogram] and [NewGenericHistogram]
    (go/stats/histogram.go). §4.1: a histogram keeps one count per bucket
    for a fixed list of ascending cutoffs plus an overflow bucket, and a
    running total count; [Add(value)] records one observation into the
    bucket of the smallest cutoff [>= value], or the overflow bucket when
    [value] exceeds every cutoff; [Count()] is the number of observations. *)
Record Histogram := mkHistogram {
  hcutoffs : list Z;
  hlabels : list string;
  hbuckets : list Z;
  hcount : Z
}.

Definition NewGenericHistogram (cutoffs : list Z) (labels : list string) : Histogram :=
  mkHistogram cutoffs labels (List.repeat 0 (length cutoffs + 1)) 0.

Fixpoint bucket_index (cutoffs : list Z) (v : Z) : nat :=
  match cutoffs with
  | [] => O
  | c :: cs => if v <=? c then O else S (bucket_index cs v)
  end.

Definition histogram_add (h : Histogram) (v : Z) : Histogram :=
  let i := bucket_index (hcutoffs h) v in
  mkHistogram (hcutoffs h) (hlabels h)
    (<[i := default 0 (hbuckets h !! i) + 1]> (hbuckets h)) (hcount h + 1).

Definition histogram_Count (h : Histogram) : Z := hcount h.

Definition new_histogram : Histogram := NewGenericHistogram bucketCutoffs bucketLabels.

(* ------------------------------------------------------------------ *)
(** ** Configuration of package stats outside timings.go *)

(** Modelled from the spec: [StatsAllStr] (go/stats/export.go), the
    "fixed sentinel string" that replaces the value of a combined
    dimension (§4.2, §4.3). The statements below never depend on which
    string it is. *)
Definition StatsAllStr : string := "all".

(** Modelled from the spec: [IsDimensionCombined] (go/stats/export.go)
    is the operator's fixed choice of combined dimensions (§4.3), a
    predicate on label names; constructors take it as an argument. *)
Definition DimensionPredicate := string -> bool.

(** Modelled from the spec: [defaultStatsdHook.timerHook], the optional
    external hook (§6). A call of the hook is recorded as an event with
    its four arguments; the registry argument is the receiver [t] as the
    hook observes it at the moment of the call. *)
Record Timings := mkTimings {
  totalCount : Z;
  totalTime : Z;
  histograms : gmap string Histogram;
  name : string;
  help : string;
  label : string;
  labelCombined : bool
}.

Record HookCall := mkHookCall {
  hook_name : string;
  hook_category : string;
  hook_millis : Z;
  hook_registry : Timings
}.

(* ------------------------------------------------------------------ *)
(** ** Timings *)

Definition set_histograms (t : Timings) (m : gmap string Histogram) : Timings :=
  mkTimings (totalCount t) (totalTime t) m (name t) (help t) (label t) (labelCombined t).

(** [NewTimings(name, help, label, categories...)]; the publication in
    the process-wide registry is not modelled. *)
Definition NewTimings (IsDimensionCombined : DimensionPredicate)
    (name help label : string) (categories : list string) : Timings :=
  let t := mkTimings 0 0 ∅ name help label (IsDimensionCombined label) in
  set_histograms t
    (foldl (fun m cat => <[cat := new_histogram]> m) (histograms t) categories).

(** [Reset]: replaces the category map with an empty one. *)
Definition Reset (t : Timings) : Timings := set_histograms t ∅.

(** [Add(name, elapsed)]. [hook_set] says whether
    [defaultStatsdHook.timerHook] is non-nil. The histogram lookup is
    done twice as in the source (under the read lock, then again under
    the write lock); run sequentially the two lookups agree. *)
Definition Add (hook_set : bool) (t : Timings) (nm : string) (elapsed : Z)
    : Timings * list HookCall :=
  let nm := if labelCombined t then StatsAllStr else nm in
  let '(hist, hists) :=
    match histograms t !! nm with
    | Some h => (h, histograms t)
    | None =>
        match histograms t !! nm with
        | Some h => (h, histograms t)
        | None => (new_histogram, <[nm := new_histogram]> (histograms t))
        end
    end in
  let t1 := set_histograms t hists in
  let calls :=
    if hook_set && negb (String.eqb (name t) "")
    then [mkHookCall (name t) nm (Milliseconds elapsed) t1] else [] in
  let elapsedNs := elapsed in
  (mkTimings (wrap64 (totalCount t + 1)) (wrap64 (totalTime t + elapsedNs))
     (<[nm := histogram_add hist elapsedNs]> hists)
     (name t) (help t) (label t) (labelCombined t), calls).

(** [time.Since(startTime)] as [now - startTime], saturated to the
    [int64] range as Go's [Time.Sub] does. *)
Definition Since (now startTime : Z) : Z :=
  Z.max int64_min (Z.min int64_max (now - startTime)).

(** [Record(name, startTime)] at clock reading [now]. *)
Definition Record_ (hook_set : bool) (t : Timings) (nm : string) (startTime now : Z)
    : Timings * list HookCall :=
  let nm := if labelCombined t then StatsAllStr else nm in
  Add hook_set t nm (Since now startTime).

(** [Histograms()] returns a copy of the map; a copy of a Go map is the
    same map value. *)
Definition Histograms (t : Timings) : gmap string Histogram := histograms t.

Definition Count (t : Timings) : Z := totalCount t.

Definition Time (t : Timings) : Z := totalTime t.

(** [Counts()]: the count of every histogram, then ["All"] set to the
    total count (overwriting a category of that name). *)
Definition Counts (t : Timings) : gmap string Z :=
  <["All" := totalCount t]> (histogram_Count <$> histograms t).

Definition Cutoffs (t : Timings) : list Z := bucketCutoffs.

(** Replays a sequence of [Add] calls, collecting the hook events. *)
Fixpoint run_adds (hook_set : bool) (t : Timings) (ops : list (string * Z))
    : Timings * list HookCall :=
  match ops with
  | [] => (t, [])
  | (nm, d) :: ops' =>
      let '(t1, c1) := Add hook_set t nm d in
      let '(t2, c2) := run_adds hook_set t1 ops' in
      (t2, c1 ++ c2)
  end.

(* ------------------------------------------------------------------ *)
(** ** Joining dimension values *)

(** [strings.Join(parts, sep)]. *)
Fixpoint Join (sep : string) (parts : list string) : string :=
  match parts with
  | [] => EmptyString
  | [p] => p
  | p :: ps => (p ++ sep ++ Join sep ps)%string
  end.

(** Whether character [c] occurs in [s]. *)
Fixpoint string_has (c : ascii) (s : string) : bool :=
  match s with
  | EmptyString => false
  | String c' s' => Ascii.eqb c c' || string_has c s'
  end.

Section MultiTimingsModel.

(** Modelled from the spec: [safeJoinLabels] (go/stats/export.go). §4.3:
    each value of a combined dimension is replaced by the sentinel
    [StatsAllStr], the values are joined in declared order with a
    separator "chosen so it cannot be confused with dimension content".
    The separator is the character [sep]; [safeLabel] is the treatment a
    non-combined value receives before joining. What the spec requires of
    them is stated where it is used. *)
Variable sep : ascii.
Variable safeLabel : string -> string.

Definition sanitized (names : list string) (combinedLabels : list bool) : list string :=
  imap (fun i n => if default false (combinedLabels !! i) then StatsAllStr else safeLabel n)
    names.

Definition safeJoinLabels (names : list string) (combinedLabels : list bool) : string :=
  Join (String sep EmptyString) (sanitized names combinedLabels).

(** The value tuple after the replacement of combined dimensions. *)
Definition replace_combined (names : list string) (combinedLabels : list bool) : list string :=
  imap (fun i n => if default false (combinedLabels !! i) then StatsAllStr else n) names.

(* ------------------------------------------------------------------ *)
(** ** MultiTimings *)

Record MultiTimings := mkMultiTimings {
  mt_timings : Timings;
  labels : list string;
  combinedLabels : list bool
}.

(** [NewMultiTimings(name, help, labels)]; [labelCombined] of the
    embedded [Timings] keeps its zero value [false]. *)
Definition NewMultiTimings (IsDimensionCombined : DimensionPredicate)
    (name help : string) (labels : list string) : MultiTimings :=
  let combinedLabels := map IsDimensionCombined labels in
  mkMultiTimings
    (mkTimings 0 0 ∅ name help (safeJoinLabels labels combinedLabels) false)
    labels combinedLabels.

Definition Labels (mt : MultiTimings) : list string := labels mt.

Definition MT_Cutoffs (mt : MultiTimings) : list Z := bucketCutoffs.

(** The outcome of a call that may panic: the receiver afterwards, the
    hook events, and [Some msg] when the call panicked with [msg]. *)
Definition Outcome := (MultiTimings * list HookCall * option string)%type.

Definition set_timings (mt : MultiTimings) (t : Timings) : MultiTimings :=
  mkMultiTimings t (labels mt) (combinedLabels mt).

(** [MultiTimings.Add(names, elapsed)]. *)
Definition MT_Add (hook_set : bool) (mt : MultiTimings) (names : list string) (elapsed : Z)
    : Outcome :=
  if negb (Nat.eqb (length names) (length (labels mt)))
  then (mt, [], Some "MultiTimings: wrong number of values in Add"%string)
  else
    let '(t', calls) :=
      Add hook_set (mt_timings mt) (safeJoinLabels names (combinedLabels mt)) elapsed in
    (set_timings mt t', calls, None).

(** [MultiTimings.Record(names, startTime)] at clock reading [now]. *)
Definition MT_Record (hook_set : bool) (mt : MultiTimings) (names : list string)
    (startTime now : Z) : Outcome :=
  if negb (Nat.eqb (length names) (length (labels mt)))
  then (mt, [], Some "MultiTimings: wrong number of values in Record"%string)
  else
    let '(t', calls) :=
      Record_ hook_set (mt_timings mt) (safeJoinLabels names (combinedLabels mt))
        startTime now in
    (set_timings mt t', calls, None).

(** A sequence of [MultiTimings.Add] calls on one receiver; a panic ends
    the sequence and is reported. *)
Fixpoint MT_run_adds (hook_set : bool) (mt : MultiTimings) (ops : list (list string * Z))
    : MultiTimings * option string :=
  match ops with
  | [] => (mt, None)
  | (names, elapsed) :: ops' =>
      let '(mt', _, p) := MT_Add hook_set mt names elapsed in
      match p with
      | Some msg => (mt', Some msg)
      | None => MT_run_adds hook_set mt' ops'
      end
  end.

End MultiTimingsModel.

(* ------------------------------------------------------------------ *)
(** ** Export *)

Section StringExport.

(** [json.Marshal] of the snapshot struct [{TotalCount, TotalTime,
    Histograms}]: the encoded bytes, or an error given by its [Error()]
    text. *)
Variable marshal_snapshot : Z -> Z -> gmap string Histogram -> string + string.

(** [json.Marshal] of a Go string; encoding a string cannot fail. *)
Variable marshal_string : string -> string.

(** [String()]: the snapshot is read under the read lock; on an encoding
    error the payload is the encoding of the error text. *)
Definition String_ (t : Timings) : string :=
  match marshal_snapshot (totalCount t) (totalTime t) (histograms t) with
  | inl data => data
  | inr err => marshal_string err
  end.

End StringExport.

(** Sum of the values of a map of counts. *)
Definition map_sum (m : gmap string Z) : Z := map_fold (fun _ v acc => v + acc) 0 m.

(** §4.3 joins the values of the non-combined dimensions as they are:
    their treatment before joining is the identity. *)
Definition as_is (s : string) : string := s.

(* ------------------------------------------------------------------ *)
(** ** Concurrent callers of [Timings.Add] *)

(** Interleaved execution of concurrent [Add] calls on one [Timings]
    with an empty initial map. [t.mu] is a reader-writer lock: a writer
    flag and a reader count. A map value is a pointer into a heap of
    histograms; [w_created] is ghost state naming, for each allocated
    histogram, the category it was allocated for. Each thread runs the
    body of [Add] one statement at a time; the program counter names the
    statement to execute next. The external hook is not modelled here. *)
Module Concurrent.

Inductive pc :=
  | RLock                      (* t.mu.RLock() *)
  | Lookup1                    (* hist, ok := t.histograms[name] *)
  | RUnlock (r : option nat)   (* t.mu.RUnlock(); if !ok *)
  | Lock                       (* t.mu.Lock() *)
  | Lookup2                    (* hist, ok = t.histograms[name]; if !ok *)
  | Create                     (* hist = NewGenericHistogram(..); t.histograms[name] = hist *)
  | Unlock (h : nat)           (* t.mu.Unlock() *)
  | AddHist (h : nat)          (* hist.Add(elapsedNs); totals *)
  | Done (h : nat).

Record thread := mkThread { t_cat : string; t_elapsed : Z; t_pc : pc }.

Record world := mkWorld {
  w_hists : gmap string nat;
  w_heap : list Histogram;
  w_created : list string;
  w_writer : bool;
  w_readers : nat;
  w_totalCount : Z;
  w_totalTime : Z
}.

Definition goto (t : thread) (p : pc) : thread := mkThread (t_cat t) (t_elapsed t) p.

Definition set_readers (w : world) (n : nat) : world :=
  mkWorld (w_hists w) (w_heap w) (w_created w) (w_writer w) n (w_totalCount w) (w_totalTime w).

Definition set_writer (w : world) (b : bool) : world :=
  mkWorld (w_hists w) (w_heap w) (w_created w) b (w_readers w) (w_totalCount w) (w_totalTime w).

(** One statement of one thread; [None] when the thread is blocked on
    the lock or has returned. *)
Definition tstep (w : world) (t : thread) : option (world * thread) :=
  match t_pc t with
  | RLock =>
      if w_writer w then None
      else Some (set_readers w (S (w_readers w)), goto t Lookup1)
  | Lookup1 => Some (w, goto t (RUnlock (w_hists w !! t_cat t)))
  | RUnlock r =>
      let w' := set_readers w (pred (w_readers w)) in
      match r with
      | Some h => Some (w', goto t (AddHist h))
      | None => Some (w', goto t Lock)
      end
  | Lock =>
      if w_writer w || negb (Nat.eqb (w_readers w) 0) then None
      else Some (set_writer w true, goto t Lookup2)
  | Lookup2 =>
      match w_hists w !! t_cat t with
      | Some h => Some (w, goto t (Unlock h))
      | None => Some (w, goto t Create)
      end
  | Create =>
      let h := length (w_heap w) in
      Some (mkWorld (<[t_cat t := h]> (w_hists w)) (w_heap w ++ [new_histogram])
              (w_created w ++ [t_cat t]) (w_writer w) (w_readers w)
              (w_totalCount w) (w_totalTime w),
            goto t (Unlock h))
  | Unlock h => Some (set_writer w false, goto t (AddHist h))
  | AddHist h =>
      Some (mkWorld (w_hists w)
              (<[h := histogram_add (default new_histogram (w_heap w !! h)) (t_elapsed t)]>
                 (w_heap w))
              (w_created w) (w_writer w) (w_readers w)
              (wrap64 (w_totalCount w + 1)) (wrap64 (w_totalTime w + t_elapsed t)),
            goto t (Done h))
  | Done _ => None
  end.

Definition config := (world * list thread)%type.

(** The scheduler runs one statement of thread [i]. *)
Inductive step : config -> config -> Prop :=
  | step_thread w ts i t w' t' :
      ts !! i = Some t -> tstep w t = Some (w', t') ->
      step (w, ts) (w', <[i := t']> ts).

(** Runs an explicit schedule of thread indices. *)
Fixpoint run_schedule (sched : list nat) (c : config) : option config :=
  match sched with
  | [] => Some c
  | i :: sched' =>
      match snd c !! i with
      | None => None
      | Some t =>
          match tstep (fst c) t with
          | None => None
          | Some (w', t') => run_schedule sched' (w', <[i := t']> (snd c))
          end
      end
  end.

Definition empty_world : world := mkWorld ∅ [] [] false 0 0 0.

(** Callers of [Add(name, elapsed)] on a [Timings] whose [labelCombined]
    is [combined]; each starts with the name replacement of line 73. *)
Definition resolved (combined : bool) (call : string * Z) : string :=
  if combined then StatsAllStr else fst call.

Definition init (combined : bool) (calls : list (string * Z)) : config :=
  (empty_world, map (fun call => mkThread (resolved combined call) (snd call) RLock) calls).

Definition is_done (t : thread) : Prop := exists h, t_pc t = Done h.

Definition in_read (t : thread) : bool :=
  match t_pc t with Lookup1 | RUnlock _ => true | _ => false end.

Definition in_write (t : thread) : bool :=
  match t_pc t with Lookup2 | Create | Unlock _ => true | _ => false end.

Fixpoint cnt (p : thread -> bool) (ts : list thread) : nat :=
  match ts with
  | [] => O
  | t :: ts' => ((if p t then 1 else 0) + cnt p ts')%nat
  end.

(** The pointer a thread holds once it has resolved its histogram. *)
Definition held (t : thread) : option nat :=
  match t_pc t with
  | RUnlock (Some h) | Unlock h | AddHist h | Done h => Some h
  | _ => None
  end.

(** The invariant of reachable configurations. *)
Record inv (c : config) : Prop := {
  inv_readers : w_readers (fst c) = cnt in_read (snd c);
  inv_writer : cnt in_write (snd c) = if w_writer (fst c) then 1%nat else 0%nat;
  inv_create : forall i t, snd c !! i = Some t -> t_pc t = Create ->
                 w_hists (fst c) !! t_cat t = None;
  inv_heap_len : length (w_heap (fst c)) = length (w_created (fst c));
  inv_map_created : forall nm h, w_hists (fst c) !! nm = Some h ->
                      w_created (fst c) !! h = Some nm;
  inv_created_map : forall h nm, w_created (fst c) !! h = Some nm ->
                      w_hists (fst c) !! nm = Some h;
  inv_held : forall i t h, snd c !! i = Some t -> held t = Some h ->
               w_hists (fst c) !! t_cat t = Some h;
  inv_created_cat : forall nm, nm ∈ w_created (fst c) -> nm ∈ t_cat <$> snd c
}.

End Concurrent.

(** Concurrent callers of [Timings.Add] at the level of single
    statements, with the lock of [sync.RWMutex] as the Go runtime
    implements it:
    - [Lock] takes the writer slot and announces the writer at once
      (the slot is invisible to readers before the announcement, so the
      two commute with every reader step); from the announcement on,
      [RLock] blocks; the writer then waits for the active readers;
    - a reader blocked in [RLock] waits for the announced writer's
      [Unlock], which admits every reader waiting for it as an active
      reader before another writer can announce; [w_gen] counts the
      [Unlock]s, and a waiting reader records the count it waits past;
    - the hook check and call (lines 91-93) is one statement that leaves
      the registry as it is (the hook is taken to return);
    - [hist.Add], [totalCount.Add(1)] and [totalTime.Add] (lines 96-98)
      are three statements. *)
Module RWConcurrent.

Inductive pc :=
  | RLock                      (* t.mu.RLock() *)
  | RWait (g : nat)            (* blocked in RLock until Unlock number g + 1 *)
  | Lookup1                    (* hist, ok := t.histograms[name] *)
  | RUnlock (r : option nat)   (* t.mu.RUnlock(); if !ok *)
  | Lock                       (* t.mu.Lock(): writer slot and announcement *)
  | LockWait                   (* t.mu.Lock(): waiting for the active readers *)
  | Lookup2                    (* hist, ok = t.histograms[name]; if !ok *)
  | Create                     (* hist = NewGenericHistogram(..); t.histograms[name] = hist *)
  | Unlock (h : nat)           (* t.mu.Unlock() *)
  | Hook (h : nat)             (* if timerHook != nil && t.name != "" { timerHook(..) } *)
  | HistAdd (h : nat)          (* hist.Add(elapsedNs) *)
  | CountAdd (h : nat)         (* t.totalCount.Add(1) *)
  | TimeAdd (h : nat)          (* t.totalTime.Add(elapsedNs) *)
  | Done (h : nat).

Record thread := mkThread { t_cat : string; t_elapsed : Z; t_pc : pc }.

Record world := mkWorld {
  w_hists : gmap string nat;
  w_heap : list Histogram;
  w_writer : bool;       (* a writer has announced itself or holds the lock *)
  w_readers : nat;       (* active readers *)
  w_waiting : nat;       (* readers blocked in RLock *)
  w_gen : nat;           (* Unlocks so far *)
  w_totalCount : Z;
  w_totalTime : Z
}.

Definition goto (t : thread) (p : pc) : thread := mkThread (t_cat t) (t_elapsed t) p.

(** One statement of one thread; [None] when the thread is blocked or
    has returned. *)
Definition tstep (w : world) (t : thread) : option (world * thread) :=
  match t_pc t with
  | RLock =>
      if w_writer w
      then Some (mkWorld (w_hists w) (w_heap w) (w_writer w) (w_readers w) (S (w_waiting w))
                   (w_gen w) (w_totalCount w) (w_totalTime w),
                 goto t (RWait (w_gen w)))
      else Some (mkWorld (w_hists w) (w_heap w) (w_writer w) (S (w_readers w)) (w_waiting w)
                   (w_gen w) (w_totalCount w) (w_totalTime w),
                 goto t Lookup1)
  | RWait g => if Nat.ltb g (w_gen w) then Some (w, goto t Lookup1) else None
  | Lookup1 => Some (w, goto t (RUnlock (w_hists w !! t_cat t)))
  | RUnlock r =>
      let w' := mkWorld (w_hists w) (w_heap w) (w_writer w) (pred (w_readers w)) (w_waiting w)
                  (w_gen w) (w_totalCount w) (w_totalTime w) in
      match r with
      | Some h => Some (w', goto t (Hook h))
      | None => Some (w', goto t Lock)
      end
  | Lock =>
      if w_writer w then None
      else Some (mkWorld (w_hists w) (w_heap w) true (w_readers w) (w_waiting w)
                   (w_gen w) (w_totalCount w) (w_totalTime w),
                 goto t LockWait)
  | LockWait => if Nat.eqb (w_readers w) 0 then Some (w, goto t Lookup2) else None
  | Lookup2 =>
      match w_hists w !! t_cat t with
      | Some h => Some (w, goto t (Unlock h))
      | None => Some (w, goto t Create)
      end
  | Create =>
      let h := length (w_heap w) in
      Some (mkWorld (<[t_cat t := h]> (w_hists w)) (w_heap w ++ [new_histogram]) (w_writer w)
              (w_readers w) (w_waiting w) (w_gen w) (w_totalCount w) (w_totalTime w),
            goto t (Unlock h))
  | Unlock h =>
      Some (mkWorld (w_hists w) (w_heap w) false (w_readers w + w_waiting w) 0
              (S (w_gen w)) (w_totalCount w) (w_totalTime w),
            goto t (Hook h))
  | Hook h => Some (w, goto t (HistAdd h))
  | HistAdd h =>
      Some (mkWorld (w_hists w)
              (<[h := histogram_add (default new_histogram (w_heap w !! h)) (t_elapsed t)]>
                 (w_heap w))
              (w_writer w) (w_readers w) (w_waiting w) (w_gen w)
              (w_totalCount w) (w_totalTime w),
            goto t (CountAdd h))
  | CountAdd h =>
      Some (mkWorld (w_hists w) (w_heap w) (w_writer w) (w_readers w) (w_waiting w) (w_gen w)
              (wrap64 (w_totalCount w + 1)) (w_totalTime w),
            goto t (TimeAdd h))
  | TimeAdd h =>
      Some (mkWorld (w_hists w) (w_heap w) (w_writer w) (w_readers w) (w_waiting w) (w_gen w)
              (w_totalCount w) (wrap64 (w_totalTime w + t_elapsed t)),
            goto t (Done h))
  | Done _ => None
  end.

Definition config := (world * list thread)%type.

Inductive step : config -> config -> Prop :=
  | step_thread w ts i t w' t' :
      ts !! i = Some t -> tstep w t = Some (w', t') ->
      step (w, ts) (w', <[i := t']> ts).

Fixpoint run_schedule (sched : list nat) (c : config) : option config :=
  match sched with
  | [] => Some c
  | i :: sched' =>
      match snd c !! i with
      | None => None
      | Some t =>
          match tstep (fst c) t with
          | None => None
          | Some (w', t') => run_schedule sched' (w', <[i := t']> (snd c))
          end
      end
  end.

Definition empty_world : world := mkWorld ∅ [] false 0 0 0 0 0.

Definition init (combined : bool) (calls : list (string * Z)) : config :=
  (empty_world,
   map (fun call => mkThread (Concurrent.resolved combined call) (snd call) RLock) calls).

Definition is_done (t : thread) : bool :=
  match t_pc t with Done _ => true | _ => false end.

Fixpoint cnt (p : thread -> bool) (ts : list thread) : nat :=
  match ts with
  | [] => O
  | t :: ts' => ((if p t then 1 else 0) + cnt p ts')%nat
  end.

(** Readers between [RLock] and [RUnlock]. *)
Definition in_read (t : thread) : bool :=
  match t_pc t with Lookup1 | RUnlock _ => true | _ => false end.

(** Readers admitted by an [Unlock] that have not run since. *)
Definition admitted (gen : nat) (t : thread) : bool :=
  match t_pc t with RWait g => Nat.ltb g gen | _ => false end.

(** Readers waiting for the announced writer. *)
Definition pending (gen : nat) (t : thread) : bool :=
  match t_pc t with RWait g => Nat.eqb g gen | _ => false end.

(** The writer, from its announcement to its [Unlock]. *)
Definition in_write (t : thread) : bool :=
  match t_pc t with LockWait | Lookup2 | Create | Unlock _ => true | _ => false end.

(** Calls past line 97, and the durations of the calls past line 98. *)
Definition counted (t : thread) : bool :=
  match t_pc t with TimeAdd _ | Done _ => true | _ => false end.

Fixpoint done_time (ts : list thread) : Z :=
  match ts with
  | [] => 0
  | t :: ts' => (if is_done t then t_elapsed t else 0) + done_time ts'
  end.

(** Steps a thread at [p] has left on its longest path. *)
Definition remaining (p : pc) : nat :=
  match p with
  | RLock => 13 | RWait _ => 12 | Lookup1 => 11 | RUnlock _ => 10 | Lock => 9
  | LockWait => 8 | Lookup2 => 7 | Create => 6 | Unlock _ => 5 | Hook _ => 4
  | HistAdd _ => 3 | CountAdd _ => 2 | TimeAdd _ => 1 | Done _ => 0
  end.

Fixpoint work (ts : list thread) : nat :=
  match ts with
  | [] => O
  | t :: ts' => (remaining (t_pc t) + work ts')%nat
  end.

(** The invariant of the lock in reachable configurations. *)
Record lock_inv (c : config) : Prop := {
  li_readers : w_readers (fst c) = (cnt in_read (snd c) + cnt (admitted (w_gen (fst c))) (snd c))%nat;
  li_waiting : w_waiting (fst c) = cnt (pending (w_gen (fst c))) (snd c);
  li_gen : Forall (fun t => match t_pc t with RWait g => (g <= w_gen (fst c))%nat | _ => True end)
             (snd c);
  li_writer : cnt in_write (snd c) = if w_writer (fst c) then 1%nat else 0%nat;
  li_no_wait : w_writer (fst c) = false -> w_waiting (fst c) = 0%nat
}.

(** The totals account for the calls past lines 97 and 98. *)
Definition totals_ok (c : config) : Prop :=
  w_totalCount (fst c) = wrap64 (Z.of_nat (cnt counted (snd c)))
  /\ w_totalTime (fst c) = wrap64 (done_time (snd c)).

End RWConcurrent.

(** The category map of a combined [Timings] holding [k] observations. *)
Definition combined_map (t : Timings) (k : Z) : Prop :=
  (k = 0 /\ histograms t = ∅)
  \/ (exists h, histograms t = {[StatsAllStr := h]} /\ histogram_Count h = k).

(* ------------------------------------------------------------------ *)
(** ** [movetables complete] (src/unnamed/part_000, package [common]) *)

(** A Go [(value, error)] pair: the value, or a non-nil error. *)
Inductive Result (A : Type) : Type :=
  | Ok (a : A)
  | Err (e : string).
Arguments Ok {A} a.
Arguments Err {A} e.

(** [vtctldatapb.MoveTablesCompleteRequest], the fields the command sets. *)
Record MoveTablesCompleteRequest := mkMoveTablesCompleteRequest {
  Workflow : string;
  TargetKeyspace : string;
  KeepData : bool;
  KeepRoutingRules : bool;
  RenameTables : bool;
  DryRun : bool
}.

(** [vtctldatapb.MoveTablesCompleteResponse], the fields the command reads. *)
Record MoveTablesCompleteResponse := mkMoveTablesCompleteResponse {
  Summary : string;
  DryRunResults : list string
}.

(** [BaseOptions] (the fields read here) and [CompleteOptions]. *)
Record BaseOptions_t := mkBaseOptions { bo_Workflow : string; bo_TargetKeyspace : string }.

Record CompleteOptions_t := mkCompleteOptions {
  co_KeepData : bool;
  co_KeepRoutingRules : bool;
  co_RenameTables : bool;
  co_DryRun : bool
}.

(** What the command does outside: calls to the server, and writes to
    standard output. *)
Inductive Event :=
  | ClientCall (req : MoveTablesCompleteRequest)
  | Stdout (s : string).

Definition nl_char : ascii := ascii_of_nat 10.
Definition nl : string := String nl_char EmptyString.

(** [strings.Split(s, sep)] for a one-character separator. *)
Fixpoint Split (c : ascii) (s : string) : list string :=
  match s with
  | EmptyString => [EmptyString]
  | String a s' =>
      let rest := Split c s' in
      if Ascii.eqb a c then EmptyString :: rest
      else match rest with
           | [] => [String a EmptyString]
           | l :: ls => String a l :: ls
           end
  end.

(** The text output of lines 61-69: a [bytes.Buffer] written with
    [WriteString]. *)
Definition text_output (resp : MoveTablesCompleteResponse) : string :=
  let tout := (EmptyString ++ (Summary resp ++ nl))%string in
  if Nat.ltb 0 (length (DryRunResults resp)) then
    fold_left (fun tout r => (tout ++ (r ++ nl))%string) (DryRunResults resp) (tout ++ nl)%string
  else tout.

Section CommandComplete.

(** The calls into other files: [GetOutputFormat(cmd)], the server's
    [MoveTablesComplete], and [cli.MarshalJSONCompact]. [cli.FinishedParsing]
    and [GetCommandCtx] have no effect that reaches the output. *)
Variable GetOutputFormat : Result string.
Variable MoveTablesComplete : MoveTablesCompleteRequest -> Result MoveTablesCompleteResponse.
Variable MarshalJSONCompact : MoveTablesCompleteResponse -> Result string.

(** [commandComplete(cmd, args)]: what it does outside, and the error it
    returns ([None] for nil). *)
Definition commandComplete (BaseOptions : BaseOptions_t) (CompleteOptions : CompleteOptions_t)
    : list Event * option string :=
  match GetOutputFormat with
  | Err e => ([], Some e)
  | Ok format =>
      let req := mkMoveTablesCompleteRequest
                   (bo_Workflow BaseOptions) (bo_TargetKeyspace BaseOptions)
                   (co_KeepData CompleteOptions) (co_KeepRoutingRules CompleteOptions)
                   (co_RenameTables CompleteOptions) (co_DryRun CompleteOptions) in
      match MoveTablesComplete req with
      | Err e => ([ClientCall req], Some e)
      | Ok resp =>
          if String.eqb format "json" then
            match MarshalJSONCompact resp with
            | Err e => ([ClientCall req], Some e)
            | Ok output => ([ClientCall req; Stdout (output ++ nl)%string], None)
            end
          else
            let output := text_output resp in
            ([ClientCall req; Stdout (output ++ nl)%string], None)
      end
  end.

End CommandComplete.

(* ================================================================== *)
(** * Properties *)

(* ------------------------------------------------------------------ *)
(** ** Cutoffs and labels *)

(** Claim C4: the shared cutoff list is exactly the ascending sequence
    5e5, 1e6, 5e6, 1e7, 5e7, 1e8, 5e8, 1e9, 5e9, 1e10; the label list has
    one more element, the last being ["inf"] and every earlier one the
    decimal rendering of the cutoff at the same index; [Cutoffs()] of a
    [Timings] and of a [MultiTimings] return this list. *)
Theorem bucket_cutoffs_labels :
  bucketCutoffs = [500000; 1000000; 5000000; 10000000; 50000000; 100000000;
                   500000000; 1000000000; 5000000000; 10000000000]
  /\ Sorted Z.lt bucketCutoffs
  /\ bucketLabels = ["500000"; "1000000"; "5000000"; "10000000"; "50000000";
                     "100000000"; "500000000"; "1000000000"; "5000000000";
                     "10000000000"; "inf"]%string
  /\ length bucketLabels = S (length bucketCutoffs)
  /\ last bucketLabels = Some "inf"%string
  /\ (forall i v, bucketCutoffs !! i = Some v -> bucketLabels !! i = Some (Sprintf_d v))
  /\ (forall t, Cutoffs t = bucketCutoffs)
  /\ (forall mt, MT_Cutoffs mt = bucketCutoffs).
Proof.
  split; [reflexivity |].
  split; [unfold bucketCutoffs; repeat constructor |].
  split; [vm_compute; reflexivity |].
  split; [vm_compute; reflexivity |].
  split; [vm_compute; reflexivity |].
  split.
  - intros i v H.
    do 10 (destruct i as [|i]; [vm_compute in H; injection H as <-; vm_compute; reflexivity |]).
    vm_compute in H. discriminate.
  - split; intros; reflexivity.
Qed.

(* ------------------------------------------------------------------ *)
(** ** Reset *)

(** Claim C5: after [Reset()], [Histograms()] is empty while [Count()]
    and [Time()] are those of before; every field other than the category
    map keeps its value. *)
Theorem Reset_frame (t : Timings) :
  Histograms (Reset t) = ∅
  /\ Count (Reset t) = Count t
  /\ Time (Reset t) = Time t
  /\ name (Reset t) = name t /\ help (Reset t) = help t
  /\ label (Reset t) = label t /\ labelCombined (Reset t) = labelCombined t.
Proof. repeat split. Qed.

(* ------------------------------------------------------------------ *)
(** ** Export *)

(** Claim C9: [String()] always yields a string: the encoding of the
    snapshot [{TotalCount, TotalTime, Histograms}] when it succeeds, and
    the encoding of the error text when it fails. *)
Theorem String_fallback
    (marshal_snapshot : Z -> Z -> gmap string Histogram -> string + string)
    (marshal_string : string -> string) (t : Timings) :
  (forall data, marshal_snapshot (Count t) (Time t) (Histograms t) = inl data ->
     String_ marshal_snapshot marshal_string t = data)
  /\ (forall err, marshal_snapshot (Count t) (Time t) (Histograms t) = inr err ->
     String_ marshal_snapshot marshal_string t = marshal_string err).
Proof.
  unfold String_, Count, Time, Histograms.
  split; intros ? H; rewrite H; reflexivity.
Qed.

Lemma String_fallback_witness :
  let ms := fun (_ _ : Z) (_ : gmap string Histogram) => @inr string string "bad value"%string in
  let t := NewTimings (fun _ => false) "q" "help" "op" [] in
  let q := String (ascii_of_nat 34) EmptyString in
  ms (Count t) (Time t) (Histograms t) = inr "bad value"%string
  /\ String_ ms (fun s => (q ++ s ++ q)%string) t = (q ++ "bad value" ++ q)%string.
Proof.
  intros ms t q. split; [reflexivity |].
  exact (proj2 (String_fallback ms (fun s => (q ++ s ++ q)%string) t) "bad value"%string eq_refl).
Defined.

(* ------------------------------------------------------------------ *)
(** ** Construction *)

(** Claim C10, as stated: every freshly constructed instance has no
    per-category entry. Refuted: [NewTimings] creates a histogram for each
    name of its optional [categories] argument. *)
Lemma NewTimings_fresh_counterexample :
  ~ (forall IsDimensionCombined name help label categories,
       Histograms (NewTimings IsDimensionCombined name help label categories) = ∅).
Proof.
  intros H. specialize (H (fun _ => false) "q"%string "help"%string "op"%string ["read"%string]).
  vm_compute in H. discriminate.
Qed.

Lemma foldl_insert_dom (v : Histogram) (cs : list string) (m0 : gmap string Histogram) :
  dom (foldl (fun m c => <[c := v]> m) m0 cs) = dom m0 ∪ list_to_set cs
  /\ (forall c h, foldl (fun m c => <[c := v]> m) m0 cs !! c = Some h ->
        m0 !! c = Some h \/ h = v).
Proof.
  revert m0. induction cs as [|c cs IH]; intros m0; simpl.
  - split; [set_solver | auto].
  - destruct (IH (<[c := v]> m0)) as [Hd Hv]. split.
    + rewrite Hd, dom_insert_L. set_solver.
    + intros c' h Hc. destruct (Hv c' h Hc) as [Hl | Hl]; [| auto].
      rewrite lookup_insert in Hl. case_decide; [right; congruence | auto].
Qed.

(** Claim C10, amended: a [Timings] constructed with no [categories] and
    every [MultiTimings] start with no per-category entry ([Counts()] is
    just ["All" := 0]); a [Timings] constructed with [categories] starts
    with exactly those categories, each histogram at count 0. *)
Theorem New_initial_histograms :
  (forall IsDimensionCombined name help label,
     Histograms (NewTimings IsDimensionCombined name help label []) = ∅
     /\ Counts (NewTimings IsDimensionCombined name help label []) = {["All" := 0]})
  /\ (forall sep safeLabel IsDimensionCombined name help labels,
     let t := mt_timings (NewMultiTimings sep safeLabel IsDimensionCombined name help labels) in
     Histograms t = ∅ /\ Counts t = {["All" := 0]})
  /\ (forall IsDimensionCombined name help label categories,
     let t := NewTimings IsDimensionCombined name help label categories in
     dom (Histograms t) = list_to_set categories
     /\ (forall c h, Histograms t !! c = Some h -> histogram_Count h = 0)
     /\ Count t = 0).
Proof.
  split; [| split].
  - intros. split; reflexivity.
  - intros. split; reflexivity.
  - intros IsDC nm hp lb cats t.
    destruct (foldl_insert_dom new_histogram cats ∅) as [Hd Hv].
    split; [| split; [| reflexivity]].
    + unfold t, Histograms, NewTimings, set_histograms; simpl.
      rewrite Hd, dom_empty_L. set_solver.
    + intros c h Hc. destruct (Hv c h Hc) as [H0 | ->]; [| reflexivity].
      rewrite lookup_empty in H0. discriminate.
Qed.

(* ------------------------------------------------------------------ *)
(** ** The timer hook *)

(** Claim C8, as stated: with the hook configured every [Add] calls it
    once. Refuted: a [Timings] with an empty name never calls it. *)
Lemma Add_hook_counterexample :
  ~ (forall t nm d, length (snd (Add true t nm d)) = 1%nat).
Proof.
  intros H. specialize (H (NewTimings (fun _ => false) "" "help" "op" []) "read"%string 2000000).
  vm_compute in H. discriminate.
Qed.

(** Claim C8, amended: when the hook is configured and the registry name
    is non-empty, [Add] calls the hook exactly once, with the name, the
    resolved category, the elapsed time in whole milliseconds (truncated
    toward zero) and the registry itself, whose map then holds the
    category; when the hook is not configured, or the name is empty, [Add]
    does not call it. *)
Theorem Add_hook_calls (t : Timings) (nm : string) (d : Z) :
  let nm' := if labelCombined t then StatsAllStr else nm in
  snd (Add false t nm d) = []
  /\ (name t = ""%string -> snd (Add true t nm d) = [])
  /\ (name t <> ""%string ->
      exists r, snd (Add true t nm d) = [mkHookCall (name t) nm' (Milliseconds d) r]
        /\ r = set_histograms t (histograms r)
        /\ is_Some (histograms r !! nm')).
Proof.
  intros nm'. unfold Add. fold nm'.
  destruct (histograms t !! nm') as [h |] eqn:E; simpl.
  - split; [reflexivity |]. split.
    + intros ->. reflexivity.
    + intros Hn. apply String.eqb_neq in Hn. rewrite Hn. simpl.
      eexists. split; [reflexivity |]. split; [reflexivity |]. simpl. rewrite E. eauto.
  - split; [reflexivity |]. split.
    + intros ->. reflexivity.
    + intros Hn. apply String.eqb_neq in Hn. rewrite Hn. simpl.
      eexists. split; [reflexivity |]. split; [reflexivity |]. simpl.
      rewrite lookup_insert_eq. eauto.
Qed.

Lemma Add_hook_calls_witness :
  let t := NewTimings (fun _ => false) "q" "help" "op" [] in
  name t <> ""%string
  /\ exists r, snd (Add true t "read" 2500000) = [mkHookCall "q" "read" 2 r]
       /\ r = set_histograms t (histograms r) /\ is_Some (histograms r !! "read"%string).
Proof.
  intros t. assert (Hn : name t <> ""%string) by discriminate.
  split; [exact Hn |].
  exact (proj2 (proj2 (Add_hook_calls t "read" 2500000)) Hn).
Defined.

(* ------------------------------------------------------------------ *)
(** ** Arity of MultiTimings calls *)

(** Claim C3: a [MultiTimings.Add] or [Record] call whose value list has
    a length other than the number of declared dimensions panics and
    leaves the registry as it was; with the right length it does not
    panic. *)
Theorem MT_arity (sep : ascii) (safeLabel : string -> string) (hook_set : bool)
    (mt : MultiTimings) (names : list string) (elapsed startTime now : Z) :
  (length names <> length (labels mt) ->
     MT_Add sep safeLabel hook_set mt names elapsed
       = (mt, [], Some "MultiTimings: wrong number of values in Add"%string)
     /\ MT_Record sep safeLabel hook_set mt names startTime now
       = (mt, [], Some "MultiTimings: wrong number of values in Record"%string))
  /\ (length names = length (labels mt) ->
     snd (MT_Add sep safeLabel hook_set mt names elapsed) = None
     /\ snd (MT_Record sep safeLabel hook_set mt names startTime now) = None).
Proof.
  unfold MT_Add, MT_Record. split; intros Hl.
  - apply Nat.eqb_neq in Hl. rewrite Hl. split; reflexivity.
  - apply Nat.eqb_eq in Hl. rewrite Hl. simpl.
    destruct (Add _ _ _ _), (Record_ _ _ _ _ _). split; reflexivity.
Qed.

Lemma MT_arity_witness :
  let mt := NewMultiTimings "." as_is (fun _ => false) "q" "help" ["Keyspace"; "Table"]%string in
  (length ["ks"]%string <> length (labels mt)
   /\ MT_Add "." as_is false mt ["ks"]%string 1000
      = (mt, [], Some "MultiTimings: wrong number of values in Add"%string))
  /\ (length ["ks"; "t1"]%string = length (labels mt)
   /\ snd (MT_Add "." as_is false mt ["ks"; "t1"]%string 1000) = None).
Proof.
  intros mt. split.
  - assert (H : length ["ks"]%string <> length (labels mt)) by discriminate.
    split; [exact H |].
    exact (proj1 (proj1 (MT_arity "." as_is false mt ["ks"]%string 1000 0 0) H)).
  - assert (H : length ["ks"; "t1"]%string = length (labels mt)) by reflexivity.
    split; [exact H |].
    exact (proj1 (proj2 (MT_arity "." as_is false mt ["ks"; "t1"]%string 1000 0 0) H)).
Defined.

(* ------------------------------------------------------------------ *)
(** ** Totals of a non-combined Timings *)

Lemma wrap64_add_l (a b : Z) : wrap64 (wrap64 a + b) = wrap64 (a + b).
Proof.
  unfold wrap64.
  replace ((a + 2 ^ 63) mod 2 ^ 64 - 2 ^ 63 + b + 2 ^ 63)
    with ((a + 2 ^ 63) mod 2 ^ 64 + b) by lia.
  rewrite Zplus_mod_idemp_l. f_equal. f_equal. lia.
Qed.

Lemma wrap64_small (a : Z) : in_int64 a -> wrap64 a = a.
Proof.
  unfold in_int64, int64_min, int64_max, wrap64. intros H.
  rewrite Z.mod_small; lia.
Qed.

Lemma wrap64_range (a : Z) : in_int64 (wrap64 a).
Proof.
  unfold in_int64, int64_min, int64_max, wrap64.
  pose proof (Z.mod_pos_bound (a + 2 ^ 63) (2 ^ 64)). lia.
Qed.

Lemma map_sum_insert (m : gmap string Z) k v :
  map_sum (<[k := v]> m) = map_sum (delete k m) + v.
Proof.
  unfold map_sum. rewrite <- insert_delete_eq.
  rewrite map_fold_insert_L; [lia | intros; lia | apply lookup_delete_eq].
Qed.

Lemma map_sum_delete (m : gmap string Z) k v :
  m !! k = Some v -> map_sum m = map_sum (delete k m) + v.
Proof. intros H. rewrite <- (insert_id m k v H) at 1. apply map_sum_insert. Qed.

Lemma run_adds_cons hook t nm d ops :
  fst (run_adds hook t ((nm, d) :: ops)) = fst (run_adds hook (fst (Add hook t nm d)) ops).
Proof.
  simpl. destruct (Add hook t nm d) as [t1 c1]. simpl.
  destruct (run_adds hook t1 ops). reflexivity.
Qed.

Lemma Add_plain_step hook t nm d :
  labelCombined t = false -> nm <> "All"%string ->
  let t' := fst (Add hook t nm d) in
  map_sum (histogram_Count <$> histograms t')
    = map_sum (histogram_Count <$> histograms t) + 1
  /\ histograms t' !! "All"%string = histograms t !! "All"%string
  /\ totalCount t' = wrap64 (totalCount t + 1)
  /\ labelCombined t' = false.
Proof.
  intros Hc Hn t'. unfold t', Add. rewrite Hc.
  destruct (histograms t !! nm) as [h |] eqn:E; simpl.
  - split; [| split; [| split]]; [| rewrite lookup_insert_ne; congruence | reflexivity | reflexivity].
    rewrite fmap_insert, map_sum_insert.
    rewrite (map_sum_delete (histogram_Count <$> histograms t) nm (histogram_Count h))
      by (rewrite lookup_fmap, E; reflexivity).
    unfold histogram_Count; simpl. lia.
  - split; [| split; [| split]];
      [| rewrite !lookup_insert_ne by congruence; reflexivity | reflexivity | reflexivity].
    rewrite insert_insert_eq, fmap_insert, map_sum_insert.
    rewrite delete_id by (rewrite lookup_fmap, E; reflexivity).
    reflexivity.
Qed.

Lemma run_adds_plain hook ops : forall t,
  labelCombined t = false -> Forall (fun op => fst op <> "All"%string) ops ->
  in_int64 (totalCount t) ->
  let t' := fst (run_adds hook t ops) in
  map_sum (histogram_Count <$> histograms t')
    = map_sum (histogram_Count <$> histograms t) + Z.of_nat (length ops)
  /\ histograms t' !! "All"%string = histograms t !! "All"%string
  /\ totalCount t' = wrap64 (totalCount t + Z.of_nat (length ops)).
Proof.
  induction ops as [| [nm d] ops IH]; intros t Hc Hall Hr t'.
  - unfold t'. simpl. rewrite Nat2Z.inj_0, !Z.add_0_r, (wrap64_small _ Hr). auto.
  - inversion Hall as [| ? ? Hn Hall']; subst. simpl in Hn.
    destruct (Add_plain_step hook t nm d Hc Hn) as (Hs & Ha & Ht & Hc').
    unfold t'. rewrite run_adds_cons.
    assert (Hr' : in_int64 (totalCount (fst (Add hook t nm d))))
      by (rewrite Ht; apply wrap64_range).
    destruct (IH _ Hc' Hall' Hr') as (Hs2 & Ha2 & Ht2).
    split; [| split].
    + rewrite Hs2, Hs. simpl length. lia.
    + rewrite Ha2, Ha. reflexivity.
    + rewrite Ht2, Ht, wrap64_add_l. f_equal. simpl length. lia.
Qed.

(** Claim C1, as stated: for every sequence of [Add] calls on a fresh
    non-combined [Timings], [Count()] is the sum of the per-category counts
    of [Counts()] without its ["All"] entry, and the number of calls.
    Refuted: a category named ["All"] has its count overwritten by the
    synthetic entry. *)
Lemma Counts_sum_counterexample :
  ~ (forall hook ops,
       let t := fst (run_adds hook (NewTimings (fun _ => false) "q" "help" "op" []) ops) in
       Count t = map_sum (delete "All"%string (Counts t))
       /\ Count t = Z.of_nat (length ops)).
Proof.
  intros H.
  destruct (H false [("All"%string, 1000000); ("read"%string, 1000000)]) as [H1 _].
  vm_compute in H1. discriminate.
Qed.

(** Claim C1, amended: for every sequence of fewer than 2^63 [Add] calls
    on a non-combined [Timings] constructed with no categories, none of
    whose categories is ["All"], [Count()] equals the sum of the counts of
    [Counts()] without the synthetic ["All"] entry, and both equal the
    number of calls. *)
Theorem Counts_sum (IsDimensionCombined : DimensionPredicate) (name help label : string)
    (hook : bool) (ops : list (string * Z)) :
  IsDimensionCombined label = false ->
  Forall (fun op => fst op <> "All"%string) ops ->
  Z.of_nat (length ops) < 2 ^ 63 ->
  let t := fst (run_adds hook (NewTimings IsDimensionCombined name help label []) ops) in
  Count t = map_sum (delete "All"%string (Counts t))
  /\ Count t = Z.of_nat (length ops).
Proof.
  intros Hc Hall Hn t.
  assert (Hr : in_int64 (totalCount (NewTimings IsDimensionCombined name help label [])))
    by (vm_compute; split; discriminate).
  destruct (run_adds_plain hook ops (NewTimings IsDimensionCombined name help label []) Hc Hall Hr)
    as (Hs & Ha & Ht).
  fold t in Hs, Ha, Ht.
  assert (Hcnt : Count t = Z.of_nat (length ops)).
  { unfold Count. rewrite Ht. simpl totalCount. apply wrap64_small.
    unfold in_int64, int64_min, int64_max. lia. }
  split; [| exact Hcnt].
  unfold Counts. rewrite delete_insert_eq, delete_id.
  - rewrite Hs, Hcnt. reflexivity.
  - rewrite lookup_fmap, Ha. reflexivity.
Qed.

Lemma Counts_sum_witness :
  let ops := [("read"%string, 2000000); ("read"%string, 2000000); ("write"%string, 1000000)] in
  let t := fst (run_adds false (NewTimings (fun _ => false) "q" "help" "op" []) ops) in
  Count t = map_sum (delete "All"%string (Counts t)) /\ Count t = 3.
Proof.
  intros ops t.
  refine (Counts_sum (fun _ => false) "q" "help" "op" false ops eq_refl _ _).
  - repeat constructor; discriminate.
  - vm_compute. reflexivity.
Defined.

(* ------------------------------------------------------------------ *)
(** ** A combined Timings *)

Lemma Add_labelCombined hook t nm d : labelCombined (fst (Add hook t nm d)) = labelCombined t.
Proof. unfold Add. destruct (histograms t !! _) eqn:E; reflexivity. Qed.

Lemma Add_combined_irrelevant hook t nm nm' d :
  labelCombined t = true -> Add hook t nm d = Add hook t nm' d.
Proof. intros Hc. unfold Add. rewrite Hc. reflexivity. Qed.

Lemma run_adds_combined_irrelevant hook ops : forall t ops',
  labelCombined t = true -> map snd ops' = map snd ops ->
  run_adds hook t ops' = run_adds hook t ops.
Proof.
  induction ops as [| [nm d] ops IH]; intros t ops' Hc Hm.
  - destruct ops'; [reflexivity | discriminate].
  - destruct ops' as [| [nm' d'] ops'']; [discriminate |].
    simpl in Hm. injection Hm as -> Hm. simpl.
    rewrite (Add_combined_irrelevant hook t nm' nm d Hc).
    pose proof (Add_labelCombined hook t nm d) as Hc1.
    destruct (Add hook t nm d) as [t1 c1]. simpl in Hc1.
    rewrite (IH t1 ops'' ltac:(congruence) Hm). reflexivity.
Qed.

Lemma Add_combined_map hook t nm d k :
  labelCombined t = true -> combined_map t k ->
  exists h, histograms (fst (Add hook t nm d)) = {[StatsAllStr := h]}
            /\ histogram_Count h = k + 1.
Proof.
  intros Hc [[-> Hm] | (h & Hm & Hk)]; unfold Add; rewrite Hc, Hm.
  - rewrite lookup_empty. simpl. eexists. split.
    + rewrite insert_insert_eq, insert_empty. reflexivity.
    + reflexivity.
  - rewrite lookup_singleton_eq. simpl. eexists. split.
    + rewrite insert_singleton_eq. reflexivity.
    + unfold histogram_Count in *. simpl. lia.
Qed.

Lemma run_adds_combined_map hook ops : forall t k,
  labelCombined t = true -> combined_map t k ->
  combined_map (fst (run_adds hook t ops)) (k + Z.of_nat (length ops)).
Proof.
  induction ops as [| [nm d] ops IH]; intros t k Hc Hm.
  - simpl. rewrite Z.add_0_r. exact Hm.
  - rewrite run_adds_cons.
    replace (k + Z.of_nat (length ((nm, d) :: ops))) with ((k + 1) + Z.of_nat (length ops))
      by (simpl length; lia).
    apply IH.
    + rewrite Add_labelCombined. exact Hc.
    + right. apply (Add_combined_map hook t nm d k Hc Hm).
Qed.

(** Claim C2, as stated: the category map of a combined [Timings] has at
    most one entry after any sequence of [Add] calls. Refuted: the
    categories given to [NewTimings] are created whether or not the label
    is combined. *)
Lemma Combined_single_counterexample :
  ~ (forall IsDimensionCombined name help label categories ops,
       IsDimensionCombined label = true ->
       (size (Histograms (fst (run_adds false
          (NewTimings IsDimensionCombined name help label categories) ops))) <= 1)%nat).
Proof.
  intros H.
  specialize (H (fun _ => true) "q"%string "help"%string "op"%string
                ["read"%string; "write"%string] [("delete"%string, 1000000)] eq_refl).
  vm_compute in H. lia.
Qed.

(** Claim C2, amended: for a combined [Timings] constructed with no
    categories, after any sequence of [Add] calls the category map is
    empty if there was no call, and otherwise holds the sentinel category
    alone, whose histogram has all the observations, so that [Counts()]
    reports that one category plus ["All"]; the categories supplied to the
    calls do not affect the result. *)
Theorem Combined_single (IsDimensionCombined : DimensionPredicate) (name help label : string)
    (hook : bool) (ops : list (string * Z)) :
  IsDimensionCombined label = true ->
  let t0 := NewTimings IsDimensionCombined name help label [] in
  let t := fst (run_adds hook t0 ops) in
  ((ops = [] /\ Histograms t = ∅ /\ Counts t = {["All"%string := 0]})
   \/ (exists h, Histograms t = {[StatsAllStr := h]}
        /\ histogram_Count h = Z.of_nat (length ops)
        /\ Counts t = <["All"%string := Count t]> {[StatsAllStr := Z.of_nat (length ops)]}))
  /\ (forall ops', map snd ops' = map snd ops -> run_adds hook t0 ops' = run_adds hook t0 ops).
Proof.
  intros Hc t0 t.
  assert (Hc0 : labelCombined t0 = true) by exact Hc.
  split.
  - destruct ops as [| op ops'] eqn:Eo.
    + left. split; [reflexivity |]. split; reflexivity.
    + right.
      assert (Hm : combined_map t0 0) by (left; split; reflexivity).
      pose proof (run_adds_combined_map hook (op :: ops') t0 0 Hc0 Hm) as Hr.
      fold t in Hr. simpl Z.add in Hr.
      destruct Hr as [[Hz _] | (h & Hh & Hk)]; [simpl length in Hz; lia |].
      exists h. split; [exact Hh |]. split; [exact Hk |].
      unfold Counts. rewrite Hh, map_fmap_singleton, Hk. reflexivity.
  - intros ops' Hm. apply run_adds_combined_irrelevant; assumption.
Qed.

Lemma Combined_single_witness :
  let t0 := NewTimings (fun _ => true) "q" "help" "op" [] in
  let ops := [("read"%string, 2000000); ("write"%string, 1000000)] in
  let t := fst (run_adds false t0 ops) in
  (fun _ : string => true) "op"%string = true
  /\ (exists h, Histograms t = {[StatsAllStr := h]} /\ histogram_Count h = 2
        /\ Counts t = <["All"%string := Count t]> {[StatsAllStr := 2]})
  /\ run_adds false t0 [("x"%string, 2000000); ("y"%string, 1000000)] = run_adds false t0 ops.
Proof.
  intros t0 ops t.
  destruct (Combined_single (fun _ => true) "q" "help" "op" false ops eq_refl) as [[(Ho & _) | Hs] Hi].
  - discriminate.
  - split; [reflexivity |]. split; [exact Hs |]. apply Hi. reflexivity.
Defined.

(* ------------------------------------------------------------------ *)
(** ** Compound keys *)

Lemma split_at_sep (sep : ascii) (p1 p2 r1 r2 : string) :
  string_has sep p1 = false -> string_has sep p2 = false ->
  (p1 ++ String sep r1 = p2 ++ String sep r2)%string -> p1 = p2 /\ r1 = r2.
Proof.
  revert p2. induction p1 as [| c1 p1 IH]; intros [| c2 p2] H1 H2 H; simpl in *.
  - injection H as ->. auto.
  - injection H as -> _. rewrite Ascii.eqb_refl in H2. discriminate.
  - injection H as -> _. rewrite Ascii.eqb_refl in H1. discriminate.
  - injection H as -> H.
    apply orb_false_iff in H1 as [_ H1]. apply orb_false_iff in H2 as [_ H2].
    destruct (IH p2 H1 H2 H) as [-> ->]. auto.
Qed.

Lemma Join_inj (sep : ascii) (l1 l2 : list string) :
  Forall (fun p => string_has sep p = false) l1 ->
  Forall (fun p => string_has sep p = false) l2 ->
  length l1 = length l2 ->
  Join (String sep EmptyString) l1 = Join (String sep EmptyString) l2 -> l1 = l2.
Proof.
  revert l2. induction l1 as [| x1 l1 IH]; intros l2 F1 F2 Hl H.
  - destruct l2; [reflexivity | discriminate].
  - destruct l2 as [| x2 l2]; [discriminate |].
    inversion F1 as [| ? ? Hx1 F1']; inversion F2 as [| ? ? Hx2 F2']; subst.
    destruct l1 as [| y1 l1'], l2 as [| y2 l2']; try discriminate.
    + simpl in H. subst. reflexivity.
    + simpl in H. simpl in IH.
      destruct (split_at_sep sep x1 x2 _ _ Hx1 Hx2 H) as [-> Hr].
      f_equal. apply IH; auto.
Qed.

Lemma sanitized_sep_free (sep : ascii) (safeLabel : string -> string) names cl :
  (forall x, string_has sep (safeLabel x) = false) ->
  string_has sep StatsAllStr = false ->
  Forall (fun p => string_has sep p = false) (sanitized safeLabel names cl).
Proof.
  intros Hs Ha. apply Forall_lookup_2. intros i p Hp.
  unfold sanitized in Hp. rewrite list_lookup_imap in Hp.
  destruct (names !! i) as [n |]; [| discriminate]. simpl in Hp. injection Hp as <-.
  destruct (default false (cl !! i)); auto.
Qed.

Lemma sanitized_eq_iff (safeLabel : string -> string) names1 names2 cl :
  (forall x y, safeLabel x = safeLabel y -> x = y) ->
  sanitized safeLabel names1 cl = sanitized safeLabel names2 cl
  <-> replace_combined names1 cl = replace_combined names2 cl.
Proof.
  intros Hinj. unfold sanitized, replace_combined. split; intros H; apply list_eq; intros i;
    pose proof (f_equal (fun l => l !! i) H) as Hi; simpl in Hi;
    rewrite !list_lookup_imap in Hi |- *;
    destruct (names1 !! i) as [a |], (names2 !! i) as [b |]; simpl in *;
    try discriminate; try reflexivity;
    injection Hi as Hi; destruct (default false (cl !! i)); try reflexivity.
  - rewrite (Hinj a b Hi). reflexivity.
  - rewrite Hi. reflexivity.
Qed.

Lemma sanitized_as_is_sep_free (sep : ascii) names cl :
  string_has sep StatsAllStr = false ->
  Forall (fun p => string_has sep p = false) names ->
  Forall (fun p => string_has sep p = false) (sanitized as_is names cl).
Proof.
  intros Ha Hn. apply Forall_lookup_2. intros i p Hp.
  unfold sanitized in Hp. rewrite list_lookup_imap in Hp.
  destruct (names !! i) as [n |] eqn:En; [| discriminate]. simpl in Hp. injection Hp as <-.
  destruct (default false (cl !! i)); [exact Ha |].
  exact (Forall_lookup_1 _ _ _ _ Hn En).
Qed.

Lemma sanitized_as_is_lookup names cl i a :
  names !! i = Some a -> default false (cl !! i) = false ->
  sanitized as_is names cl !! i = Some a.
Proof.
  intros Hn Hc. unfold sanitized. rewrite list_lookup_imap, Hn. simpl. rewrite Hc. reflexivity.
Qed.

(** Claim C6, amended: with the values joined as they are and a
    separator character [sep], the compound key of [MultiTimings.Add] is
    a function of the sentinel-replaced value tuple; and when neither the
    sentinel nor any value of the tuple contains the separator, swapping
    two distinct values of non-combined dimensions gives a different
    key. *)
Theorem safeJoinLabels_key (sep : ascii) (mt : MultiTimings) (names : list string)
    (i j : nat) (a b : string) :
  (forall names', replace_combined names (combinedLabels mt) = replace_combined names' (combinedLabels mt) ->
     safeJoinLabels sep as_is names (combinedLabels mt)
     = safeJoinLabels sep as_is names' (combinedLabels mt))
  /\ (string_has sep StatsAllStr = false ->
      Forall (fun v => string_has sep v = false) names ->
      names !! i = Some a -> names !! j = Some b -> a <> b ->
      default false (combinedLabels mt !! i) = false ->
      default false (combinedLabels mt !! j) = false ->
      safeJoinLabels sep as_is names (combinedLabels mt)
      <> safeJoinLabels sep as_is (<[i := b]> (<[j := a]> names)) (combinedLabels mt)).
Proof.
  split.
  - intros names' H. unfold safeJoinLabels.
    change (sanitized as_is names (combinedLabels mt)) with (replace_combined names (combinedLabels mt)).
    change (sanitized as_is names' (combinedLabels mt)) with (replace_combined names' (combinedLabels mt)).
    rewrite H. reflexivity.
  - intros Ha Hn Hi Hj Hab Hci Hcj Heq.
    set (names' := <[i := b]> (<[j := a]> names)) in Heq.
    assert (Hij : i <> j) by congruence.
    assert (Hn' : Forall (fun v => string_has sep v = false) names').
    { apply Forall_insert; [apply Forall_insert; [exact Hn |] |].
      - exact (Forall_lookup_1 _ _ _ _ Hn Hi).
      - exact (Forall_lookup_1 _ _ _ _ Hn Hj). }
    assert (Hi' : names' !! i = Some b).
    { unfold names'. apply list_lookup_insert_eq.
      rewrite length_insert. apply lookup_lt_is_Some_1. eauto. }
    unfold safeJoinLabels in Heq.
    apply (Join_inj sep) in Heq;
      [| apply sanitized_as_is_sep_free; assumption
       | apply sanitized_as_is_sep_free; assumption
       | unfold sanitized, names'; rewrite !length_imap, !length_insert; reflexivity].
    pose proof (f_equal (fun l => l !! i) Heq) as E. simpl in E.
    rewrite (sanitized_as_is_lookup _ _ _ _ Hi Hci),
            (sanitized_as_is_lookup _ _ _ _ Hi' Hci) in E.
    congruence.
Qed.

Lemma safeJoinLabels_key_witness :
  let mt := NewMultiTimings "." as_is (fun _ => false) "q" "help" ["Keyspace"; "Table"]%string in
  string_has "." StatsAllStr = false
  /\ Forall (fun v => string_has "." v = false) ["ks1"; "t1"]%string
  /\ safeJoinLabels "." as_is ["ks1"; "t1"]%string (combinedLabels mt)
     <> safeJoinLabels "." as_is (<[0%nat := "t1"]> (<[1%nat := "ks1"]> ["ks1"; "t1"]))%string
          (combinedLabels mt).
Proof.
  intros mt.
  assert (Ha : string_has "." StatsAllStr = false) by reflexivity.
  assert (Hn : Forall (fun v => string_has "." v = false) ["ks1"; "t1"]%string)
    by (repeat constructor).
  split; [exact Ha |]. split; [exact Hn |].
  exact (proj2 (safeJoinLabels_key "." mt ["ks1"; "t1"]%string 0%nat 1%nat "ks1" "t1")
           Ha Hn eq_refl eq_refl ltac:(discriminate) eq_refl eq_refl).
Defined.

(** Joined as they are, the distinct values ["x"] and ["x" sep "x"]
    give the same compound key in either order, whatever the separator
    character. *)
Lemma safeJoinLabels_collide (sep : ascii) (cl : list bool) :
  cl = [false; false] ->
  "x"%string <> String "x" (String sep "x")
  /\ safeJoinLabels sep as_is ["x"%string; String "x" (String sep "x")] cl
     = safeJoinLabels sep as_is [String "x" (String sep "x"); "x"%string] cl.
Proof.
  intros ->. split.
  - intros H. injection H as H. discriminate.
  - reflexivity.
Qed.

(** Claim C6 fails as stated: with the separator '.' of the compound
    names of timings.go, the distinct values ["x"] and ["x.x"] give the
    key ["x.x.x"] in either order. *)
Lemma safeJoinLabels_key_counterexample :
  let mt := NewMultiTimings "." as_is (fun _ => false) "q" "help" ["Keyspace"; "Table"]%string in
  "x"%string <> "x.x"%string
  /\ safeJoinLabels "." as_is ["x"; "x.x"]%string (combinedLabels mt) = "x.x.x"%string
  /\ safeJoinLabels "." as_is ["x.x"; "x"]%string (combinedLabels mt) = "x.x.x"%string.
Proof.
  intros mt.
  destruct (safeJoinLabels_collide "." (combinedLabels mt) eq_refl) as [Hne _].
  split; [exact Hne |]. split; reflexivity.
Qed.

(* ------------------------------------------------------------------ *)
(** ** Concurrent first observations of a category *)

Module ConcurrentFacts.
Import Concurrent.

Lemma cnt_insert p ts i t t' :
  ts !! i = Some t ->
  (cnt p (<[i := t']> ts) + (if p t then 1 else 0) = cnt p ts + (if p t' then 1 else 0))%nat.
Proof.
  revert i. induction ts as [| u ts IH]; intros [| i] Hi; simpl in *; try discriminate.
  - injection Hi as ->. lia.
  - specialize (IH i Hi). lia.
Qed.

Lemma cnt_one p ts i t : ts !! i = Some t -> p t = true -> (1 <= cnt p ts)%nat.
Proof.
  revert i. induction ts as [| u ts IH]; intros [| i] Hi Hp; simpl in *; try discriminate.
  - injection Hi as ->. rewrite Hp. lia.
  - specialize (IH i Hi Hp). lia.
Qed.

Lemma cnt_two p ts i j ti tj :
  ts !! i = Some ti -> ts !! j = Some tj -> i <> j -> p ti = true -> p tj = true ->
  (2 <= cnt p ts)%nat.
Proof.
  revert i j. induction ts as [| u ts IH]; intros [| i] [| j] Hi Hj Hne Hpi Hpj;
    simpl in *; try discriminate; try congruence.
  - injection Hi as ->. rewrite Hpi. pose proof (cnt_one p ts j tj Hj Hpj). lia.
  - injection Hj as ->. rewrite Hpj. pose proof (cnt_one p ts i ti Hi Hpi). lia.
  - assert (i <> j) by congruence. pose proof (IH i j Hi Hj ltac:(assumption) Hpi Hpj). lia.
Qed.

Lemma lookup_insert_cases (ts : list thread) i t t' j u :
  ts !! i = Some t -> <[i := t']> ts !! j = Some u ->
  (i = j /\ u = t') \/ (i <> j /\ ts !! j = Some u).
Proof.
  intros Hi Hj. destruct (decide (i = j)) as [<- | Hne].
  - left. split; [reflexivity |].
    rewrite list_lookup_insert_eq in Hj by (eapply lookup_lt_Some; eauto). congruence.
  - right. split; [exact Hne |]. rewrite list_lookup_insert_ne in Hj by exact Hne. exact Hj.
Qed.

Lemma tstep_cat w t w' t' : tstep w t = Some (w', t') -> t_cat t' = t_cat t.
Proof.
  unfold tstep. intros Hs. destruct (t_pc t); repeat case_match; try discriminate;
    injection Hs as _ <-; reflexivity.
Qed.

Lemma cats_insert (ts : list thread) i t t' :
  ts !! i = Some t -> t_cat t' = t_cat t -> t_cat <$> <[i := t']> ts = t_cat <$> ts.
Proof.
  intros Hi Hc. rewrite list_fmap_insert, Hc. apply list_insert_id.
  rewrite list_lookup_fmap, Hi. reflexivity.
Qed.

(** The thread being stepped is the only one whose local state changes;
    the other threads keep what the invariant says of them. *)
Ltac other_thread Hi Hj :=
  let Hne := fresh "Hne" in let Hj' := fresh "Hj'" in
  destruct (lookup_insert_cases _ _ _ _ _ _ Hi Hj) as [[<- ->] | [Hne Hj']].

Lemma inv_step w ts i t w' t' :
  inv (w, ts) -> ts !! i = Some t -> tstep w t = Some (w', t') ->
  inv (w', <[i := t']> ts).
Proof.
  intros [Hr Hw Hcr Hl Hmc Hcm Hh Hcc] Hi Hs. simpl in *.
  pose proof (tstep_cat w t w' t' Hs) as Hcat.
  pose proof (cats_insert ts i t t' Hi Hcat) as Hcats.
  pose proof (cnt_insert in_read ts i t t' Hi) as Ir.
  pose proof (cnt_insert in_write ts i t t' Hi) as Iw.
  assert (Hrd : in_read t = true -> (1 <= cnt in_read ts)%nat) by (apply cnt_one with i; exact Hi).
  assert (Hwr : in_write t = true -> (1 <= cnt in_write ts)%nat) by (apply cnt_one with i; exact Hi).
  assert (Hht : forall h, held t = Some h -> w_hists w !! t_cat t = Some h)
    by (intros h; apply (Hh i t h Hi)).
  change (in_read t) with (match t_pc t with Lookup1 | RUnlock _ => true | _ => false end)
    in Ir, Hrd.
  change (in_write t) with (match t_pc t with Lookup2 | Create | Unlock _ => true | _ => false end)
    in Iw, Hwr.
  unfold held in Hht. unfold tstep in Hs.
  revert Ir Iw Hrd Hwr Hht Hs.
  destruct (t_pc t) as [| | r | | | | h | h | h] eqn:Ep; intros Ir Iw Hrd Hwr Hht Hs.
  - (* RLock *)
    destruct (w_writer w) eqn:Ew; [discriminate |]. injection Hs as <- <-.
    simpl in Ir, Iw. constructor; simpl.
    + lia.
    + rewrite ?Ew in *. lia.
    + intros j u Hj Hu. other_thread Hi Hj; [discriminate | eauto].
    + exact Hl.
    + exact Hmc.
    + exact Hcm.
    + intros j u h' Hj Hu. other_thread Hi Hj; [discriminate | eauto].
    + rewrite Hcats. exact Hcc.
  - (* Lookup1 *)
    injection Hs as <- <-. simpl in Ir, Iw. constructor; simpl.
    + lia.
    + lia.
    + intros j u Hj Hu. other_thread Hi Hj; [discriminate | eauto].
    + exact Hl.
    + exact Hmc.
    + exact Hcm.
    + intros j u h' Hj Hu. other_thread Hi Hj; [| eauto].
      unfold held in Hu; simpl in Hu |- *. revert Hu. destruct (w_hists w !! t_cat t); simpl; congruence.
    + rewrite Hcats. exact Hcc.
  - (* RUnlock r *)
    specialize (Hrd eq_refl).
    destruct r as [h |]; injection Hs as <- <-; simpl in Ir, Iw; constructor; simpl.
    + lia.
    + lia.
    + intros j u Hj Hu. other_thread Hi Hj; [discriminate | eauto].
    + exact Hl.
    + exact Hmc.
    + exact Hcm.
    + intros j u h' Hj Hu. other_thread Hi Hj; [| eauto].
      unfold held in Hu; simpl in Hu |- *. injection Hu as <-. auto.
    + rewrite Hcats. exact Hcc.
    + lia.
    + lia.
    + intros j u Hj Hu. other_thread Hi Hj; [discriminate | eauto].
    + exact Hl.
    + exact Hmc.
    + exact Hcm.
    + intros j u h' Hj Hu. other_thread Hi Hj; [discriminate | eauto].
    + rewrite Hcats. exact Hcc.
  - (* Lock *)
    destruct (w_writer w) eqn:Ew; [discriminate |].
    destruct (Nat.eqb_spec (w_readers w) 0) as [Hz |]; [| discriminate].
    injection Hs as <- <-. simpl in Ir, Iw. constructor; simpl.
    + lia.
    + rewrite ?Ew in *. lia.
    + intros j u Hj Hu. other_thread Hi Hj; [discriminate | eauto].
    + exact Hl.
    + exact Hmc.
    + exact Hcm.
    + intros j u h' Hj Hu. other_thread Hi Hj; [discriminate | eauto].
    + rewrite Hcats. exact Hcc.
  - (* Lookup2 *)
    destruct (w_hists w !! t_cat t) as [h |] eqn:Eh; injection Hs as <- <-;
      simpl in Ir, Iw; constructor; simpl.
    + lia.
    + lia.
    + intros j u Hj Hu. other_thread Hi Hj; [discriminate | eauto].
    + exact Hl.
    + exact Hmc.
    + exact Hcm.
    + intros j u h' Hj Hu. other_thread Hi Hj; [| eauto].
      unfold held in Hu; simpl in Hu |- *. congruence.
    + rewrite Hcats. exact Hcc.
    + lia.
    + lia.
    + intros j u Hj Hu. other_thread Hi Hj; [exact Eh | eauto].
    + exact Hl.
    + exact Hmc.
    + exact Hcm.
    + intros j u h' Hj Hu. other_thread Hi Hj; [discriminate | eauto].
    + rewrite Hcats. exact Hcc.
  - (* Create *)
    assert (Hnone : w_hists w !! t_cat t = None) by (eapply Hcr; eauto).
    injection Hs as <- <-. simpl in Ir, Iw. constructor; simpl.
    + lia.
    + lia.
    + intros j u Hj Hu. other_thread Hi Hj; [discriminate |].
      exfalso. specialize (Hwr eq_refl).
      assert (Hu' : in_write u = true) by (unfold in_write; rewrite Hu; reflexivity).
      assert (Ht' : in_write t = true) by (unfold in_write; rewrite Ep; reflexivity).
      pose proof (cnt_two in_write ts i j t u Hi Hj' Hne Ht' Hu').
      destruct (w_writer w); lia.
    + rewrite !length_app. simpl. lia.
    + intros nm h Hm. rewrite lookup_insert in Hm. case_decide as Hc.
      * injection Hm as <-. subst nm. rewrite lookup_app_r by lia.
        rewrite Hl, Nat.sub_diag. reflexivity.
      * apply lookup_app_l_Some. eauto.
    + intros h nm Hm. apply lookup_app_Some in Hm as [Hm | [Hge Hm]].
      * pose proof (Hcm h nm Hm) as Hn. rewrite lookup_insert_ne by congruence. exact Hn.
      * destruct (h - length (w_created w))%nat as [| k] eqn:Ek; [| destruct k; discriminate].
        simpl in Hm. injection Hm as <-. rewrite lookup_insert_eq. f_equal. lia.
    + intros j u h' Hj Hu. other_thread Hi Hj.
      * unfold held in Hu; simpl in Hu |- *. injection Hu as <-. apply lookup_insert_eq.
      * pose proof (Hh j u h' Hj' Hu) as Hn. rewrite lookup_insert_ne by congruence. exact Hn.
    + intros nm Hm. rewrite Hcats. apply elem_of_app in Hm as [Hm | Hm]; [eauto |].
      apply list_elem_of_singleton in Hm as ->.
      apply list_elem_of_fmap_2. eapply list_elem_of_lookup_2. eauto.
  - (* Unlock h *)
    specialize (Hwr eq_refl).
    injection Hs as <- <-. simpl in Ir, Iw. constructor; simpl.
    + lia.
    + destruct (w_writer w); lia.
    + intros j u Hj Hu. other_thread Hi Hj; [discriminate | eauto].
    + exact Hl.
    + exact Hmc.
    + exact Hcm.
    + intros j u h' Hj Hu. other_thread Hi Hj; [| eauto].
      unfold held in Hu; simpl in Hu |- *. injection Hu as <-. auto.
    + rewrite Hcats. exact Hcc.
  - (* AddHist h *)
    injection Hs as <- <-. simpl in Ir, Iw. constructor; simpl.
    + lia.
    + lia.
    + intros j u Hj Hu. other_thread Hi Hj; [discriminate | eauto].
    + rewrite length_insert. exact Hl.
    + exact Hmc.
    + exact Hcm.
    + intros j u h' Hj Hu. other_thread Hi Hj; [| eauto].
      unfold held in Hu; simpl in Hu |- *. injection Hu as <-. auto.
    + rewrite Hcats. exact Hcc.
  - (* Done *)
    discriminate.
Qed.

Lemma init_cats combined calls :
  t_cat <$> snd (init combined calls) = resolved combined <$> calls.
Proof.
  induction calls as [| [nm d] calls IH]; [reflexivity |].
  simpl. f_equal. exact IH.
Qed.

Lemma init_pc combined calls : Forall (fun t => t_pc t = RLock) (snd (init combined calls)).
Proof.
  apply Forall_forall. intros t Ht. simpl in Ht. apply list_elem_of_In, in_map_iff in Ht as [[nm d] [<- _]].
  reflexivity.
Qed.

Lemma cnt_zero p ts : Forall (fun t => p t = false) ts -> cnt p ts = 0%nat.
Proof. induction 1 as [| t ts Ht _ IH]; simpl; [reflexivity | rewrite Ht, IH; reflexivity]. Qed.

Lemma inv_init combined calls : inv (init combined calls).
Proof.
  pose proof (init_pc combined calls) as Hpc.
  constructor; simpl.
  - symmetry. apply cnt_zero. eapply Forall_impl; [exact Hpc |].
    intros t Ht. unfold in_read. rewrite Ht. reflexivity.
  - apply cnt_zero. eapply Forall_impl; [exact Hpc |].
    intros t Ht. unfold in_write. rewrite Ht. reflexivity.
  - intros i t Hi Hc. pose proof (Forall_lookup_1 _ _ _ _ Hpc Hi) as Ht. simpl in Ht. congruence.
  - reflexivity.
  - intros nm h Hm. rewrite lookup_empty in Hm. discriminate.
  - intros h nm Hm. rewrite lookup_nil in Hm. discriminate.
  - intros i t h Hi Hh. pose proof (Forall_lookup_1 _ _ _ _ Hpc Hi) as Ht. simpl in Ht.
    unfold held in Hh. rewrite Ht in Hh. discriminate.
  - intros nm Hm. apply elem_of_nil in Hm as [].
Qed.

Lemma step_inv_cats c c' : step c c' -> inv c -> inv c' /\ t_cat <$> snd c' = t_cat <$> snd c.
Proof.
  intros Hs Hinv. inversion Hs as [w ts i t w' t' Hi Ht]; subst. split.
  - eapply inv_step; eauto.
  - simpl. apply (cats_insert ts i t t' Hi). eapply tstep_cat; eauto.
Qed.

Lemma reach_inv c c' : rtc step c c' -> inv c -> inv c' /\ t_cat <$> snd c' = t_cat <$> snd c.
Proof.
  induction 1 as [c | c1 c2 c3 H12 H23 IH]; intros Hinv; [auto |].
  destruct (step_inv_cats c1 c2 H12 Hinv) as [Hinv2 Hc2].
  destruct (IH Hinv2) as [Hinv3 Hc3]. split; [exact Hinv3 | congruence].
Qed.

Lemma run_schedule_rtc sched : forall c c',
  run_schedule sched c = Some c' -> rtc step c c'.
Proof.
  induction sched as [| i sched IH]; intros [w ts] c' H; simpl in H.
  - injection H as <-. apply rtc_refl.
  - destruct (ts !! i) as [t |] eqn:Hi; [| discriminate].
    destruct (tstep w t) as [[w' t'] |] eqn:Ht; [| discriminate].
    eapply rtc_l; [econstructor; eauto | apply IH; exact H].
Qed.

(** Claim C7: whatever the interleaving of concurrent [Add] calls on a
    [Timings] whose map starts empty, once every call has returned, at
    most one histogram was ever allocated for each category, exactly the
    categories observed by the calls have one, the map holds exactly
    these categories, and every call recorded into the histogram the map
    holds for its category. *)
Theorem concurrent_first_add (combined : bool) (calls : list (string * Z))
    (w : world) (ts : list thread) :
  rtc step (init combined calls) (w, ts) ->
  Forall is_done ts ->
  NoDup (w_created w)
  /\ (forall nm, nm ∈ w_created w <-> nm ∈ resolved combined <$> calls)
  /\ dom (w_hists w) = list_to_set (resolved combined <$> calls)
  /\ (forall i t, ts !! i = Some t -> exists h, t_pc t = Done h /\ w_hists w !! t_cat t = Some h).
Proof.
  intros Hr Hd.
  destruct (reach_inv _ _ Hr (inv_init combined calls)) as [Hinv Hcats].
  rewrite init_cats in Hcats. simpl in Hcats.
  destruct Hinv as [_ _ _ _ Hmc Hcm Hh Hcc]. simpl in Hmc, Hcm, Hh, Hcc.
  assert (Hthr : forall i t, ts !! i = Some t ->
            exists h, t_pc t = Done h /\ w_hists w !! t_cat t = Some h).
  { intros i t Hi. destruct (Forall_lookup_1 _ _ _ _ Hd Hi) as [h Hp].
    exists h. split; [exact Hp |]. apply (Hh i t h Hi). unfold held. rewrite Hp. reflexivity. }
  assert (Hiff : forall nm, nm ∈ w_created w <-> nm ∈ resolved combined <$> calls).
  { intros nm. rewrite <- Hcats. split; [apply Hcc |].
    intros Hm. apply list_elem_of_fmap in Hm as [t [-> Ht]].
    apply list_elem_of_lookup in Ht as [i Hi].
    destruct (Hthr i t Hi) as [h [_ Hm]].
    eapply list_elem_of_lookup_2. apply Hmc. exact Hm. }
  split; [| split; [exact Hiff | split; [| exact Hthr]]].
  - apply NoDup_alt. intros h1 h2 nm E1 E2.
    pose proof (Hcm _ _ E1). pose proof (Hcm _ _ E2). congruence.
  - apply set_eq. intros nm. rewrite elem_of_dom, elem_of_list_to_set, <- Hiff.
    split.
    + intros [h Hm]. eapply list_elem_of_lookup_2. apply Hmc. exact Hm.
    + intros Hm. apply list_elem_of_lookup in Hm as [h Hm]. eexists. apply Hcm. exact Hm.
Qed.

(** Two callers observe the new category ["read"] at once: both miss it
    under the read lock, the first creates its histogram under the write
    lock, the second finds it on the second lookup. *)
Lemma concurrent_first_add_witness :
  let calls := [("read"%string, 1000000); ("read"%string, 2000000)] in
  let sched := [0; 1; 0; 1; 0; 1; 0; 0; 0; 0; 1; 1; 1; 0; 1]%nat in
  exists w ts,
    run_schedule sched (init false calls) = Some (w, ts)
    /\ rtc step (init false calls) (w, ts)
    /\ Forall is_done ts
    /\ w_created w = ["read"%string]
    /\ NoDup (w_created w)
    /\ dom (w_hists w) = list_to_set (resolved false <$> calls).
Proof.
  intros calls sched.
  destruct (run_schedule sched (init false calls)) as [[w ts] |] eqn:E;
    [| vm_compute in E; discriminate].
  exists w, ts.
  assert (Hr : rtc step (init false calls) (w, ts)) by (apply (run_schedule_rtc sched); exact E).
  assert (Hd : Forall is_done ts).
  { vm_compute in E. injection E as <- <-.
    repeat constructor; eexists; reflexivity. }
  destruct (concurrent_first_add false calls w ts Hr Hd) as (Hn & _ & Hdom & _).
  split; [reflexivity |]. split; [exact Hr |]. split; [exact Hd |].
  split; [vm_compute in E; injection E as <- <-; reflexivity |].
  split; [exact Hn | exact Hdom].
Defined.

End ConcurrentFacts.

(* ------------------------------------------------------------------ *)
(** ** Further properties of Timings *)

Lemma Add_dom hook t nm d :
  let nm' := if labelCombined t then StatsAllStr else nm in
  dom (histograms (fst (Add hook t nm d))) = {[nm']} ∪ dom (histograms t)
  /\ (forall c, c <> nm' -> histograms (fst (Add hook t nm d)) !! c = histograms t !! c).
Proof.
  intros nm'. unfold Add. fold nm'.
  destruct (histograms t !! nm') eqn:E; simpl; split.
  - rewrite dom_insert_L. reflexivity.
  - intros c Hc. rewrite lookup_insert_ne by congruence. reflexivity.
  - rewrite !dom_insert_L. set_solver.
  - intros c Hc. rewrite !lookup_insert_ne by congruence. reflexivity.
Qed.

(** [Add] adds the resolved category to the map when it is missing and
    leaves the histogram of every other category untouched; it never
    removes a category. *)
Theorem Add_other_categories (hook : bool) (t : Timings) (nm : string) (d : Z) :
  let nm' := if labelCombined t then StatsAllStr else nm in
  dom (Histograms (fst (Add hook t nm d))) = {[nm']} ∪ dom (Histograms t)
  /\ (forall c, c <> nm' -> Histograms (fst (Add hook t nm d)) !! c = Histograms t !! c).
Proof. apply Add_dom. Qed.

Lemma run_adds_dom hook ops : forall t,
  labelCombined t = false ->
  dom (histograms (fst (run_adds hook t ops))) = dom (histograms t) ∪ list_to_set (map fst ops).
Proof.
  induction ops as [| [nm d] ops IH]; intros t Hc.
  - simpl. set_solver.
  - rewrite run_adds_cons, IH by (rewrite Add_labelCombined; exact Hc).
    destruct (Add_dom hook t nm d) as [Hd _]. rewrite Hc in Hd. rewrite Hd.
    simpl. set_solver.
Qed.

(** On a non-combined [Timings], after any sequence of [Add] calls the
    category map holds exactly the categories given to [NewTimings] and
    those used by the calls. *)
Theorem Histograms_after_adds (IsDimensionCombined : DimensionPredicate)
    (name help label : string) (categories : list string) (hook : bool)
    (ops : list (string * Z)) :
  IsDimensionCombined label = false ->
  dom (Histograms (fst (run_adds hook (NewTimings IsDimensionCombined name help label categories) ops)))
    = list_to_set categories ∪ list_to_set (map fst ops).
Proof.
  intros Hc. unfold Histograms. rewrite run_adds_dom by exact Hc.
  destruct (foldl_insert_dom new_histogram categories ∅) as [Hd _].
  unfold NewTimings, set_histograms. simpl. rewrite Hd, dom_empty_L. set_solver.
Qed.

Lemma Histograms_after_adds_witness :
  dom (Histograms (fst (run_adds false (NewTimings (fun _ => false) "q" "help" "op" ["init"%string])
     [("read"%string, 1000); ("write"%string, 1000); ("read"%string, 5)])))
  = list_to_set ["init"%string] ∪ list_to_set ["read"%string; "write"%string; "read"%string].
Proof. exact (Histograms_after_adds (fun _ => false) "q" "help" "op" _ false _ eq_refl). Defined.

Lemma run_adds_time hook ops : forall t,
  in_int64 (totalTime t) ->
  totalTime (fst (run_adds hook t ops)) = wrap64 (totalTime t + fold_right Z.add 0 (map snd ops)).
Proof.
  induction ops as [| [nm d] ops IH]; intros t Hr.
  - simpl. rewrite Z.add_0_r. symmetry. apply wrap64_small, Hr.
  - rewrite run_adds_cons.
    assert (Ht : totalTime (fst (Add hook t nm d)) = wrap64 (totalTime t + d)).
    { unfold Add. destruct (histograms t !! _); reflexivity. }
    rewrite IH by (rewrite Ht; apply wrap64_range).
    rewrite Ht, wrap64_add_l. simpl. f_equal. lia.
Qed.

(** [Time()] after a sequence of [Add] calls is the previous total plus
    the sum of the durations, with int64 wrap-around. *)
Theorem Time_after_adds (hook : bool) (t : Timings) (ops : list (string * Z)) :
  in_int64 (Time t) ->
  Time (fst (run_adds hook t ops)) = wrap64 (Time t + fold_right Z.add 0 (map snd ops)).
Proof. apply run_adds_time. Qed.

Lemma Time_after_adds_witness :
  let t := NewTimings (fun _ => false) "q" "help" "op" [] in
  let ops := [("read"%string, 2000000); ("read"%string, 2000000); ("write"%string, 1000000)] in
  in_int64 (Time t)
  /\ Time (fst (run_adds false t ops)) = wrap64 (Time t + fold_right Z.add 0 (map snd ops)).
Proof.
  intros t ops.
  assert (H : in_int64 (Time t)) by (vm_compute; split; discriminate).
  exact (conj H (Time_after_adds false t ops H)).
Defined.

(** After [Reset()], a sequence of [Add] calls on a non-combined
    [Timings] with no category ["All"] brings the per-category counts to
    the number of calls, while [Count()] goes on from its value before the
    reset. *)
Theorem Reset_then_adds (hook : bool) (t : Timings) (ops : list (string * Z)) :
  labelCombined t = false -> in_int64 (Count t) ->
  Forall (fun op => fst op <> "All"%string) ops ->
  let t' := fst (run_adds hook (Reset t) ops) in
  Count t' = wrap64 (Count t + Z.of_nat (length ops))
  /\ map_sum (delete "All"%string (Counts t')) = Z.of_nat (length ops).
Proof.
  intros Hc Hr Hall t'.
  destruct (run_adds_plain hook ops (Reset t) Hc Hall Hr) as (Hs & Ha & Ht).
  fold t' in Hs, Ha, Ht. split; [exact Ht |].
  unfold Counts. rewrite delete_insert_eq, delete_id.
  - rewrite Hs. reflexivity.
  - rewrite lookup_fmap, Ha. reflexivity.
Qed.

Lemma Reset_then_adds_witness :
  let t := fst (run_adds false (NewTimings (fun _ => false) "q" "help" "op" [])
                  [("read"%string, 1000); ("write"%string, 1000)]) in
  let t' := fst (run_adds false (Reset t) [("read"%string, 1000)]) in
  Count t' = wrap64 (Count t + 1) /\ map_sum (delete "All"%string (Counts t')) = 1.
Proof.
  intros t t'.
  refine (Reset_then_adds false t [("read"%string, 1000)] eq_refl _ _).
  - vm_compute. split; discriminate.
  - repeat constructor; discriminate.
Defined.

(** [Record(name, startTime)] is [Add(name, now - startTime)] with the
    duration saturated to the int64 range: its own replacement of the name
    for a combined [Timings] changes nothing, since [Add] replaces it
    again. *)
Theorem Record_is_Add (hook : bool) (t : Timings) (nm : string) (startTime now : Z) :
  Record_ hook t nm startTime now = Add hook t nm (Since now startTime)
  /\ in_int64 (Since now startTime).
Proof.
  split.
  - unfold Record_. destruct (labelCombined t) eqn:Hc; [| reflexivity].
    apply Add_combined_irrelevant, Hc.
  - unfold Since, in_int64, int64_min, int64_max. lia.
Qed.

(* ------------------------------------------------------------------ *)
(** ** Further properties of MultiTimings *)

Lemma Add_totalCount hook t nm d :
  totalCount (fst (Add hook t nm d)) = wrap64 (totalCount t + 1).
Proof. unfold Add. destruct (histograms t !! _); reflexivity. Qed.

Lemma MT_Add_ok sep safeLabel hook mt names d :
  length names = length (labels mt) ->
  MT_Add sep safeLabel hook mt names d
  = (set_timings mt (fst (Add hook (mt_timings mt) (safeJoinLabels sep safeLabel names (combinedLabels mt)) d)),
     snd (Add hook (mt_timings mt) (safeJoinLabels sep safeLabel names (combinedLabels mt)) d),
     None).
Proof.
  intros Hn. unfold MT_Add. rewrite Hn, Nat.eqb_refl. cbn [negb].
  destruct (Add _ _ _ _). reflexivity.
Qed.

Lemma MT_run_adds_gen sep safeLabel hook ops : forall mt,
  labelCombined (mt_timings mt) = false ->
  in_int64 (totalCount (mt_timings mt)) ->
  Forall (fun op => length (fst op) = length (labels mt)) ops ->
  let r := MT_run_adds sep safeLabel hook mt ops in
  snd r = None /\ labels (fst r) = labels mt
  /\ combinedLabels (fst r) = combinedLabels mt
  /\ labelCombined (mt_timings (fst r)) = false
  /\ dom (histograms (mt_timings (fst r)))
       = dom (histograms (mt_timings mt))
         ∪ list_to_set (map (fun op => safeJoinLabels sep safeLabel (fst op) (combinedLabels mt)) ops)
  /\ totalCount (mt_timings (fst r)) = wrap64 (totalCount (mt_timings mt) + Z.of_nat (length ops)).
Proof.
  induction ops as [| [names d] ops IH]; intros mt Hc Hr Hall r.
  - subst r. cbn [MT_run_adds fst snd map list_to_set length Z.of_nat].
    rewrite Z.add_0_r, (wrap64_small _ Hr).
    repeat split; auto. set_solver.
  - inversion Hall as [| ? ? Hn Hall']; subst. cbn [fst] in Hn.
    subst r. cbn [MT_run_adds]. rewrite (MT_Add_ok sep safeLabel hook mt names d Hn).
    set (k := safeJoinLabels sep safeLabel names (combinedLabels mt)).
    set (t' := fst (Add hook (mt_timings mt) k d)).
    assert (Hd := proj1 (Add_dom hook (mt_timings mt) k d)).
    assert (Hl := Add_labelCombined hook (mt_timings mt) k d).
    assert (Ht := Add_totalCount hook (mt_timings mt) k d).
    fold t' in Hd, Hl, Ht. rewrite Hc in Hd, Hl.
    destruct (IH (set_timings mt t')) as (H1 & H2 & H3 & H4 & H5 & H6);
      [exact Hl | cbn [mt_timings set_timings]; rewrite Ht; apply wrap64_range | exact Hall' |].
    cbn [set_timings labels combinedLabels mt_timings] in H1, H2, H3, H4, H5, H6.
    repeat split; [exact H1 | exact H2 | exact H3 | exact H4 | |].
    + rewrite H5, Hd. cbn [map list_to_set fst]. fold k. set_solver.
    + rewrite H6, Ht, wrap64_add_l. f_equal. cbn [length]. lia.
Qed.

(** Starting from [NewMultiTimings], a sequence of [Add] calls that all
    give one value per label never panics, keeps [Labels()], and leaves
    one histogram per distinct joined key of the calls, with [Count()] the
    number of calls (int64 wrap-around). *)
Theorem MultiTimings_adds (sep : ascii) (safeLabel : string -> string)
    (IsDimensionCombined : DimensionPredicate) (name help : string)
    (lbls : list string) (hook : bool) (ops : list (list string * Z)) :
  Forall (fun op => length (fst op) = length lbls) ops ->
  let r := MT_run_adds sep safeLabel hook
             (NewMultiTimings sep safeLabel IsDimensionCombined name help lbls) ops in
  snd r = None /\ Labels (fst r) = lbls
  /\ dom (Histograms (mt_timings (fst r)))
       = list_to_set (map (fun op => safeJoinLabels sep safeLabel (fst op)
                                       (map IsDimensionCombined lbls)) ops)
  /\ Count (mt_timings (fst r)) = wrap64 (Z.of_nat (length ops)).
Proof.
  intros Hall r.
  destruct (MT_run_adds_gen sep safeLabel hook ops
              (NewMultiTimings sep safeLabel IsDimensionCombined name help lbls))
    as (H1 & H2 & _ & _ & H5 & H6); [reflexivity | vm_compute; split; discriminate
                                     | exact Hall |].
  fold r in H1, H2, H5, H6.
  unfold Labels, Histograms, Count. simpl in H2, H5, H6.
  repeat split; [exact H1 | exact H2 | | exact H6].
  rewrite H5, dom_empty_L. set_solver.
Qed.

Lemma MultiTimings_adds_witness :
  let lbls := ["Keyspace"%string; "Shard"%string] in
  let isc := fun l => String.eqb l "Shard" in
  let ops := [(["ks1"%string; "-80"%string], 1000); (["ks1"%string; "80-"%string], 1000);
              (["ks2"%string; "-80"%string], 1000)] in
  Forall (fun op => length (fst op) = length lbls) ops
  /\ let r := MT_run_adds "."%char as_is false
               (NewMultiTimings "."%char as_is isc "q" "help" lbls) ops in
     snd r = None /\ Labels (fst r) = lbls
     /\ dom (Histograms (mt_timings (fst r)))
          = list_to_set (map (fun op => safeJoinLabels "."%char as_is (fst op) (map isc lbls)) ops)
     /\ Count (mt_timings (fst r)) = wrap64 (Z.of_nat (length ops)).
Proof.
  intros lbls isc ops.
  assert (H : Forall (fun op => length (fst op) = length lbls) ops) by (repeat constructor).
  exact (conj H (MultiTimings_adds "."%char as_is isc "q" "help" lbls false ops H)).
Defined.

(** With one value per label, [MultiTimings.Record(names, startTime)] is
    [MultiTimings.Add(names, now - startTime)] with the duration saturated
    to the int64 range. *)
Theorem MT_Record_is_Add (sep : ascii) (safeLabel : string -> string) (hook : bool)
    (mt : MultiTimings) (names : list string) (startTime now : Z) :
  length names = length (labels mt) ->
  MT_Record sep safeLabel hook mt names startTime now
  = MT_Add sep safeLabel hook mt names (Since now startTime).
Proof.
  intros Hn. unfold MT_Record, MT_Add. rewrite Hn, Nat.eqb_refl. simpl.
  unfold Record_. destruct (labelCombined (mt_timings mt)) eqn:Hc; [| reflexivity].
  rewrite (Add_combined_irrelevant hook _ StatsAllStr
             (safeJoinLabels sep safeLabel names (combinedLabels mt)) _ Hc).
  reflexivity.
Qed.

Lemma MT_Record_is_Add_witness :
  MT_Record "."%char as_is false
    (NewMultiTimings "."%char as_is (fun _ => false) "q" "help" ["Keyspace"%string])
    ["ks1"%string] 5 1000005
  = MT_Add "."%char as_is false
      (NewMultiTimings "."%char as_is (fun _ => false) "q" "help" ["Keyspace"%string])
      ["ks1"%string] (Since 1000005 5).
Proof.
  exact (MT_Record_is_Add "."%char as_is false
           (NewMultiTimings "."%char as_is (fun _ => false) "q" "help" ["Keyspace"%string])
           ["ks1"%string] 5 1000005 eq_refl).
Defined.


(* ------------------------------------------------------------------ *)
(** ** [movetables complete] *)

Module CommandCompleteFacts.

Lemma str_app_nil (b : string) : (EmptyString ++ b = b)%string.
Proof. reflexivity. Qed.

Lemma str_app_cons (x : ascii) (a b : string) : (String x a ++ b = String x (a ++ b))%string.
Proof. reflexivity. Qed.

Lemma str_app_nil_r (a : string) : (a ++ EmptyString = a)%string.
Proof. induction a as [| x a IH]; [reflexivity | rewrite str_app_cons, IH; reflexivity]. Qed.

Lemma str_app_assoc (a b c : string) : ((a ++ b) ++ c = a ++ (b ++ c))%string.
Proof.
  induction a as [| x a IH]; [reflexivity |]. rewrite !str_app_cons, IH. reflexivity.
Qed.

Lemma Split_app (c : ascii) (s rest : string) :
  string_has c s = false -> Split c (s ++ String c rest)%string = s :: Split c rest.
Proof.
  induction s as [| a s IH]; intros H.
  - rewrite str_app_nil. simpl. rewrite Ascii.eqb_refl. reflexivity.
  - rewrite str_app_cons. simpl in H |- *.
    apply orb_false_iff in H as [Hca Hs]. rewrite (IH Hs).
    destruct (Ascii.eqb a c) eqn:Eac; [| reflexivity].
    apply Ascii.eqb_eq in Eac. subst. rewrite Ascii.eqb_refl in Hca. discriminate.
Qed.

Lemma fold_left_write (rs : list string) : forall b,
  fold_left (fun tout r => (tout ++ (r ++ nl))%string) rs b
  = (b ++ fold_right (fun r acc => r ++ String nl_char acc) EmptyString rs)%string.
Proof.
  induction rs as [| r rs IH]; intros b; simpl.
  - symmetry. apply str_app_nil_r.
  - rewrite IH, !str_app_assoc. reflexivity.
Qed.

Lemma Split_lines (rs : list string) (tail : string) :
  Forall (fun r => string_has nl_char r = false) rs ->
  Split nl_char (fold_right (fun r acc => r ++ String nl_char acc) EmptyString rs ++ tail)%string
  = rs ++ Split nl_char tail.
Proof.
  induction 1 as [| r rs Hr _ IH]; simpl; [rewrite str_app_nil; reflexivity |].
  rewrite str_app_assoc, str_app_cons, Split_app by exact Hr. rewrite IH. reflexivity.
Qed.

(** [commandComplete] calls the server at most once, with the request
    built from the options; it writes to standard output exactly when it
    returns nil, once, after the call; when it returns an error it writes
    nothing; and it calls nothing when the output format is rejected. *)
Theorem commandComplete_effects
    (GetOutputFormat : Result string)
    (MoveTablesComplete : MoveTablesCompleteRequest -> Result MoveTablesCompleteResponse)
    (MarshalJSONCompact : MoveTablesCompleteResponse -> Result string)
    (BaseOptions : BaseOptions_t) (CompleteOptions : CompleteOptions_t) :
  let req := mkMoveTablesCompleteRequest
               (bo_Workflow BaseOptions) (bo_TargetKeyspace BaseOptions)
               (co_KeepData CompleteOptions) (co_KeepRoutingRules CompleteOptions)
               (co_RenameTables CompleteOptions) (co_DryRun CompleteOptions) in
  let r := commandComplete GetOutputFormat MoveTablesComplete MarshalJSONCompact
             BaseOptions CompleteOptions in
  (snd r = None -> exists out, fst r = [ClientCall req; Stdout out])
  /\ (snd r <> None -> fst r = [] \/ fst r = [ClientCall req])
  /\ (fst r = [] <-> exists e, GetOutputFormat = Err e).
Proof.
  intros req r. subst r. unfold commandComplete. fold req.
  destruct GetOutputFormat as [format | e]; simpl.
  - destruct (MoveTablesComplete req) as [resp | e]; simpl.
    + destruct (String.eqb format "json").
      * destruct (MarshalJSONCompact resp) as [out | e]; simpl.
        -- split; [eauto |]. split; [intros H; exfalso; exact (H eq_refl) |].
           split; [discriminate | intros [e He]; discriminate].
        -- split; [discriminate |]. split; [auto |].
           split; [discriminate | intros [e' He]; discriminate].
      * split; [eauto |]. split; [intros H; exfalso; exact (H eq_refl) |].
        split; [discriminate | intros [e He]; discriminate].
    + split; [discriminate |]. split; [auto |].
      split; [discriminate | intros [e' He]; discriminate].
  - split; [discriminate |]. split; [auto |]. split; [eauto | reflexivity].
Qed.

(** In text format, with a summary and dry-run results free of newlines,
    the printed output is the summary line, then, when there are dry-run
    results, a blank line and one line per result, and it always ends
    with an empty line: split at newlines it gives these lines followed by
    two empty strings. *)
Theorem commandComplete_text_lines
    (GetOutputFormat : Result string)
    (MoveTablesComplete : MoveTablesCompleteRequest -> Result MoveTablesCompleteResponse)
    (MarshalJSONCompact : MoveTablesCompleteResponse -> Result string)
    (BaseOptions : BaseOptions_t) (CompleteOptions : CompleteOptions_t)
    (format : string) (resp : MoveTablesCompleteResponse) :
  let req := mkMoveTablesCompleteRequest
               (bo_Workflow BaseOptions) (bo_TargetKeyspace BaseOptions)
               (co_KeepData CompleteOptions) (co_KeepRoutingRules CompleteOptions)
               (co_RenameTables CompleteOptions) (co_DryRun CompleteOptions) in
  GetOutputFormat = Ok format -> format <> "json"%string ->
  MoveTablesComplete req = Ok resp ->
  string_has nl_char (Summary resp) = false ->
  Forall (fun r => string_has nl_char r = false) (DryRunResults resp) ->
  exists out,
    commandComplete GetOutputFormat MoveTablesComplete MarshalJSONCompact
      BaseOptions CompleteOptions = ([ClientCall req; Stdout out], None)
    /\ Split nl_char out
       = Summary resp :: (match DryRunResults resp with
                          | [] => []
                          | rs => EmptyString :: rs
                          end) ++ [EmptyString; EmptyString].
Proof.
  intros req Hf Hj Hc Hs Hr. unfold commandComplete. rewrite Hf. fold req. rewrite Hc.
  apply String.eqb_neq in Hj. rewrite Hj.
  eexists. split; [reflexivity |].
  unfold text_output. destruct (DryRunResults resp) as [| r rs] eqn:Ed; simpl.
  - rewrite str_app_nil, str_app_assoc. unfold nl. rewrite str_app_cons, str_app_nil.
    rewrite Split_app by exact Hs. reflexivity.
  - inversion Hr as [| ? ? Hr0 Hrs]; subst.
    rewrite fold_left_write, str_app_nil, !str_app_assoc. unfold nl.
    rewrite !str_app_cons, !str_app_nil.
    rewrite Split_app by exact Hs. simpl.
    rewrite Split_app by exact Hr0. rewrite Split_lines by exact Hrs. reflexivity.
Qed.

Lemma commandComplete_text_lines_witness :
  let resp := mkMoveTablesCompleteResponse "Dry Run results"
                ["Lock keyspace customer"%string; "Rename tables"%string] in
  exists out,
    commandComplete (Ok "text"%string) (fun _ => Ok resp) (fun _ => Err "unused"%string)
      (mkBaseOptions "commerce2customer" "customer") (mkCompleteOptions false false false true)
    = ([ClientCall (mkMoveTablesCompleteRequest "commerce2customer" "customer" false false false true);
        Stdout out], None)
    /\ Split nl_char out
       = ["Dry Run results"%string; EmptyString; "Lock keyspace customer"%string;
          "Rename tables"%string; EmptyString; EmptyString].
Proof.
  intros resp.
  exact (commandComplete_text_lines (Ok "text"%string) (fun _ => Ok resp) (fun _ => Err "unused"%string)
           (mkBaseOptions "commerce2customer" "customer") (mkCompleteOptions false false false true)
           "text" resp eq_refl ltac:(discriminate) eq_refl eq_refl ltac:(repeat constructor)).
Defined.

End CommandCompleteFacts.

(* ------------------------------------------------------------------ *)
(** ** Order of [Add] calls *)

Lemma Add_fst hook t nm d :
  let nm' := if labelCombined t then StatsAllStr else nm in
  fst (Add hook t nm d)
  = mkTimings (wrap64 (totalCount t + 1)) (wrap64 (totalTime t + d))
      (<[nm' := histogram_add (default new_histogram (histograms t !! nm')) d]> (histograms t))
      (name t) (help t) (label t) (labelCombined t).
Proof.
  intros nm'. unfold Add. fold nm'.
  destruct (histograms t !! nm') eqn:E; simpl; [reflexivity |].
  rewrite insert_insert_eq. reflexivity.
Qed.

(** On a non-combined [Timings], two [Add] calls for different categories
    leave the same state in either order: counts, total time and
    histograms agree. *)
Theorem Add_commute (hook : bool) (t : Timings) (nm1 nm2 : string) (d1 d2 : Z) :
  labelCombined t = false -> nm1 <> nm2 ->
  fst (Add hook (fst (Add hook t nm1 d1)) nm2 d2)
  = fst (Add hook (fst (Add hook t nm2 d2)) nm1 d1).
Proof.
  intros Hc Hne.
  rewrite (Add_fst hook (fst (Add hook t nm1 d1))), (Add_fst hook (fst (Add hook t nm2 d2))).
  rewrite !Add_labelCombined, Hc, !Add_fst, Hc. simpl.
  rewrite !lookup_insert_ne by congruence.
  rewrite !wrap64_add_l, (insert_insert_ne _ nm2 nm1) by congruence.
  do 2 f_equal. lia.
Qed.

Lemma Add_commute_witness :
  let t := NewTimings (fun _ => false) "q" "help" "op" [] in
  labelCombined t = false /\ "read"%string <> "write"%string
  /\ fst (Add false (fst (Add false t "read" 1000)) "write" 2000)
     = fst (Add false (fst (Add false t "write" 2000)) "read" 1000).
Proof.
  intros t.
  assert (Hc : labelCombined t = false) by reflexivity.
  assert (Hn : "read"%string <> "write"%string) by discriminate.
  exact (conj Hc (conj Hn (Add_commute false t "read" "write" 1000 2000 Hc Hn))).
Defined.

(* ------------------------------------------------------------------ *)
(** ** Concurrent [Add] calls under [sync.RWMutex] *)

Module RWConcurrentFacts.
Import RWConcurrent.

(** The counts of a predicate before and after one thread moves. *)
Lemma rw_cnt_insert p ts i t t' :
  ts !! i = Some t ->
  (cnt p (<[i := t']> ts) + (if p t then 1 else 0) = cnt p ts + (if p t' then 1 else 0))%nat.
Proof.
  revert i. induction ts as [| u ts IH]; intros [| i] Hi; simpl in *; try discriminate.
  - injection Hi as ->. lia.
  - specialize (IH i Hi). lia.
Qed.

Lemma rw_gen_succ_one gen t :
  match t_pc t with RWait g => (g <= gen)%nat | _ => True end ->
  ((if admitted (S gen) t then 1 else 0) = (if admitted gen t then 1 else 0) + (if pending gen t then 1 else 0))%nat
  /\ pending (S gen) t = false.
Proof.
  unfold admitted, pending. destruct (t_pc t); intros H; try (split; reflexivity).
  destruct (Nat.ltb_spec g (S gen)), (Nat.ltb_spec g gen), (Nat.eqb_spec g gen), (Nat.eqb_spec g (S gen));
    split; try reflexivity; lia.
Qed.

Lemma rw_cnt_gen_succ gen ts :
  Forall (fun t => match t_pc t with RWait g => (g <= gen)%nat | _ => True end) ts ->
  cnt (admitted (S gen)) ts = (cnt (admitted gen) ts + cnt (pending gen) ts)%nat
  /\ cnt (pending (S gen)) ts = 0%nat.
Proof.
  induction 1 as [| t ts Ht _ [IH1 IH2]]; [auto |].
  destruct (rw_gen_succ_one gen t Ht) as [E1 E2]. simpl. rewrite IH1, IH2, E2. lia.
Qed.

Lemma rw_inv_step w ts i t w' t' :
  lock_inv (w, ts) -> ts !! i = Some t -> tstep w t = Some (w', t') ->
  lock_inv (w', <[i := t']> ts).
Proof.
  intros [Hr Hw Hg Hwr Hnw] Hi Hs. simpl in *.
  pose proof (Forall_lookup_1 _ _ _ _ Hg Hi) as Hgt. simpl in Hgt.
  unfold tstep in Hs.
  destruct (t_pc t) eqn:E; repeat case_match; try discriminate; injection Hs as <- <-.
  all: match goal with |- lock_inv (_, <[_ := ?u]> _) =>
    pose proof (rw_cnt_insert in_read ts i t u Hi);
    pose proof (rw_cnt_insert in_write ts i t u Hi);
    pose proof (rw_cnt_insert (admitted (w_gen w)) ts i t u Hi);
    pose proof (rw_cnt_insert (pending (w_gen w)) ts i t u Hi) end.
  all: try match goal with E : t_pc ?tt = Unlock ?h |- _ =>
    assert (HgI : Forall (fun u => match t_pc u with RWait g => (g <= w_gen w)%nat | _ => True end)
                    (<[i := goto tt (Hook h)]> ts))
      by (apply Forall_insert; [exact Hg | exact I]);
    pose proof (rw_cnt_gen_succ (w_gen w) _ HgI) end.
  all: constructor; simpl.
  all: try (apply Forall_insert; [first [exact Hg | eapply Forall_impl; [exact Hg |]; intros x Hx; destruct (t_pc x); first [lia | exact I]] | simpl; first [exact I | lia]]).
  all: cbv [in_read admitted pending in_write goto] in *; simpl in *; rewrite ?E in *.
  all: rewrite ?Nat.ltb_irrefl, ?Nat.eqb_refl in *.
  all: try match goal with Hx : (?g <? ?n)%nat = true |- _ =>
         rewrite Hx in *;
         assert (Heqb : (g =? n)%nat = false) by (apply Nat.eqb_neq; apply Nat.ltb_lt in Hx; lia);
         rewrite Heqb in * end.
  all: try lia.
  all: try (intros; lia).
  all: try (destruct (w_writer w); simpl in *; first [lia | congruence | discriminate]).
  all: try (intros; congruence).
  all: apply Forall_insert; [| exact I].
  all: apply (Forall_impl _ _ _ Hg); intros x Hx; destruct (t_pc x); first [exact I | lia].
Qed.

Lemma rw_init_pc combined calls : Forall (fun t => t_pc t = RLock) (snd (init combined calls)).
Proof.
  apply Forall_forall. intros t Ht. simpl in Ht. apply list_elem_of_In, in_map_iff in Ht as [[nm d] [<- _]].
  reflexivity.
Qed.

Lemma rw_cnt_zero p ts : Forall (fun t => p t = false) ts -> cnt p ts = 0%nat.
Proof. induction 1 as [| t ts Ht _ IH]; simpl; [reflexivity | rewrite Ht, IH; reflexivity]. Qed.

Lemma rw_inv_init combined calls : lock_inv (init combined calls).
Proof.
  pose proof (rw_init_pc combined calls) as Hpc.
  assert (Hz : forall p, p (mkThread EmptyString 0 RLock) = false ->
             (forall t, t_pc t = RLock -> p t = p (mkThread EmptyString 0 RLock)) ->
             cnt p (snd (init combined calls)) = 0%nat).
  { intros p Hp Hq. apply rw_cnt_zero. eapply Forall_impl; [exact Hpc |].
    intros t Ht. rewrite (Hq t Ht). exact Hp. }
  constructor; simpl.
  - rewrite !Hz; try reflexivity; intros t Ht; cbv [in_read admitted]; rewrite Ht; reflexivity.
  - rewrite Hz; try reflexivity; intros t Ht; cbv [pending]; rewrite Ht; reflexivity.
  - eapply Forall_impl; [exact Hpc |]. intros t Ht. rewrite Ht. exact I.
  - rewrite Hz; try reflexivity; intros t Ht; cbv [in_write]; rewrite Ht; reflexivity.
  - reflexivity.
Qed.

Lemma rw_reach_inv c c' : rtc step c c' -> lock_inv c -> lock_inv c'.
Proof.
  induction 1 as [c | c1 c2 c3 H12 H23 IH]; intros Hinv; [exact Hinv |].
  apply IH. inversion H12 as [w ts i t w' t' Hi Ht]; subst. eapply rw_inv_step; eauto.
Qed.

Lemma rw_cnt_some p ts : (1 <= cnt p ts)%nat -> exists j u, ts !! j = Some u /\ p u = true.
Proof.
  induction ts as [| t ts IH]; simpl; intros H; [lia |].
  destruct (p t) eqn:Hp.
  - exists 0%nat, t. auto.
  - destruct (IH ltac:(lia)) as (j & u & Hj & Hu). exists (S j), u. auto.
Qed.

Lemma rw_cnt_one p ts i t : ts !! i = Some t -> p t = true -> (1 <= cnt p ts)%nat.
Proof.
  revert i. induction ts as [| u ts IH]; intros [| i] Hi Hp; simpl in *; try discriminate.
  - injection Hi as ->. rewrite Hp. lia.
  - specialize (IH i Hi Hp). lia.
Qed.

Lemma rw_can_step w ts i t : ts !! i = Some t -> tstep w t <> None -> exists c', step (w, ts) c'.
Proof.
  intros Hi Ht. destruct (tstep w t) as [[w' t'] |] eqn:E; [| congruence].
  exists (w', <[i := t']> ts). econstructor; eauto.
Qed.

(** When a writer has announced itself, some thread can move: the
    writer, or one of the readers it waits for. *)
Lemma rw_writer_progress w ts :
  lock_inv (w, ts) -> w_writer w = true -> exists c', step (w, ts) c'.
Proof.
  intros [Hr _ _ Hwr _] Hw. simpl in *. rewrite Hw in Hwr.
  destruct (rw_cnt_some in_write ts ltac:(lia)) as (j & u & Hj & Hu).
  unfold in_write in Hu. destruct (t_pc u) eqn:E; try discriminate.
  - destruct (Nat.eqb_spec (w_readers w) 0) as [H0 | H0].
    + apply (rw_can_step w ts j u Hj). unfold tstep. rewrite E, H0. discriminate.
    + assert (H1 : (1 <= cnt in_read ts)%nat \/ (1 <= cnt (admitted (w_gen w)) ts)%nat) by lia.
      destruct H1 as [H1 | H1]; destruct (rw_cnt_some _ _ H1) as (k & v & Hk & Hv);
        apply (rw_can_step w ts k v Hk); cbv [in_read admitted] in Hv; unfold tstep;
        destruct (t_pc v); try discriminate; try rewrite Hv; try destruct r; discriminate.
  - apply (rw_can_step w ts j u Hj). unfold tstep. rewrite E. destruct (w_hists w !! t_cat u); discriminate.
  - apply (rw_can_step w ts j u Hj). unfold tstep. rewrite E. discriminate.
  - apply (rw_can_step w ts j u Hj). unfold tstep. rewrite E. discriminate.
Qed.

Lemma rw_progress c :
  lock_inv c -> (exists i t, snd c !! i = Some t /\ is_done t = false) -> exists c', step c c'.
Proof.
  destruct c as [w ts]. intros Hinv (i & t & Hi & Hd). simpl in Hi.
  pose proof Hinv as [Hr Hwt Hg Hwr Hnw]. simpl in *.
  unfold is_done in Hd.
  destruct (t_pc t) eqn:E; try discriminate;
    try (apply (rw_can_step w ts i t Hi); unfold tstep; rewrite E;
         first [destruct (w_writer w); discriminate
               | destruct r; discriminate
               | destruct (w_hists w !! t_cat t); discriminate
               | discriminate]).
  - (* RWait g *)
    destruct (Nat.ltb g (w_gen w)) eqn:Hlt.
    + apply (rw_can_step w ts i t Hi). unfold tstep. rewrite E, Hlt. discriminate.
    + pose proof (Forall_lookup_1 _ _ _ _ Hg Hi) as Hgt. simpl in Hgt. rewrite E in Hgt.
      apply Nat.ltb_ge in Hlt.
      assert (Hp : (1 <= cnt (pending (w_gen w)) ts)%nat).
      { apply (rw_cnt_one _ ts i t Hi). unfold pending. rewrite E. apply Nat.eqb_eq. lia. }
      apply rw_writer_progress; [exact Hinv |].
      destruct (w_writer w) eqn:Hw; [reflexivity |]. specialize (Hnw eq_refl). lia.
  - (* Lock *)
    destruct (w_writer w) eqn:Hw.
    + apply rw_writer_progress; assumption.
    + apply (rw_can_step w ts i t Hi). unfold tstep. rewrite E, Hw. discriminate.
  - (* LockWait *)
    apply rw_writer_progress; [exact Hinv |].
    assert (H : (1 <= cnt in_write ts)%nat)
      by (apply (rw_cnt_one _ ts i t Hi); unfold in_write; rewrite E; reflexivity).
    destruct (w_writer w); [reflexivity | lia].
Qed.

Lemma rw_tstep_remaining w t w' t' :
  tstep w t = Some (w', t') -> (remaining (t_pc t') < remaining (t_pc t))%nat.
Proof.
  unfold tstep. destruct (t_pc t) eqn:E; repeat case_match; try discriminate;
    injection 1 as <- <-; simpl; lia.
Qed.

Lemma rw_work_insert ts i t t' :
  ts !! i = Some t -> (work (<[i := t']> ts) + remaining (t_pc t) = work ts + remaining (t_pc t'))%nat.
Proof.
  revert i. induction ts as [| u ts IH]; intros [| i] Hi; simpl in *; try discriminate.
  - injection Hi as ->. lia.
  - specialize (IH i Hi). lia.
Qed.

Lemma rw_step_work c c' : step c c' -> (work (snd c') < work (snd c))%nat.
Proof.
  intros Hs. inversion Hs as [w ts i t w' t' Hi Ht]; subst. simpl.
  pose proof (rw_work_insert ts i t t' Hi). pose proof (rw_tstep_remaining _ _ _ _ Ht). lia.
Qed.

Lemma rw_all_done_dec (ts : list thread) :
  Forall (fun t => is_done t = true) ts \/ exists i t, ts !! i = Some t /\ is_done t = false.
Proof.
  induction ts as [| t ts [IH | (i & u & Hi & Hu)]].
  - left. constructor.
  - destruct (is_done t) eqn:Ht.
    + left. constructor; assumption.
    + right. exists 0%nat, t. auto.
  - right. exists (S i), u. auto.
Qed.

Lemma rw_finish c :
  lock_inv c -> exists c', rtc step c c' /\ Forall (fun t => is_done t = true) (snd c').
Proof.
  remember (work (snd c)) as n eqn:Hn. revert c Hn.
  induction n as [n IH] using (well_founded_induction lt_wf). intros c Hn Hinv.
  destruct (rw_all_done_dec (snd c)) as [Hd | Hnd].
  - exists c. split; [apply rtc_refl | exact Hd].
  - destruct (rw_progress c Hinv Hnd) as [c1 Hs].
    assert (Hinv1 : lock_inv c1).
    { inversion Hs as [w ts i t w' t' Hi Ht]; subst. eapply rw_inv_step; eauto. }
    pose proof (rw_step_work _ _ Hs) as Hlt.
    destruct (IH (work (snd c1)) ltac:(lia) c1 eq_refl Hinv1) as (c' & Hr & Hd).
    exists c'. split; [eapply rtc_l; eauto | exact Hd].
Qed.

Lemma rw_tstep_elapsed w t w' t' : tstep w t = Some (w', t') -> t_elapsed t' = t_elapsed t.
Proof.
  unfold tstep. destruct (t_pc t); repeat case_match; try discriminate; injection 1 as <- <-; reflexivity.
Qed.

Lemma rw_done_time_insert ts i t t' :
  ts !! i = Some t ->
  done_time (<[i := t']> ts) + (if is_done t then t_elapsed t else 0)
  = done_time ts + (if is_done t' then t_elapsed t' else 0).
Proof.
  revert i. induction ts as [| u ts IH]; intros [| i] Hi; simpl in *; try discriminate.
  - injection Hi as ->. lia.
  - specialize (IH i Hi). lia.
Qed.

Lemma rw_elapsed_insert (ts : list thread) i t t' :
  ts !! i = Some t -> t_elapsed t' = t_elapsed t ->
  t_elapsed <$> <[i := t']> ts = t_elapsed <$> ts.
Proof.
  intros Hi He. rewrite list_fmap_insert, He.
  apply list_insert_id. rewrite list_lookup_fmap, Hi. reflexivity.
Qed.

Lemma rw_step_totals c c' :
  step c c' -> totals_ok c -> totals_ok c' /\ t_elapsed <$> snd c' = t_elapsed <$> snd c.
Proof.
  intros Hs [Hc Ht]. inversion Hs as [w ts i t w' t' Hi Hst]; subst. simpl in *.
  pose proof (rw_tstep_elapsed _ _ _ _ Hst) as He.
  split; [| apply (rw_elapsed_insert ts i t t' Hi He)].
  pose proof (rw_cnt_insert counted ts i t t' Hi) as Hcnt.
  pose proof (rw_done_time_insert ts i t t' Hi) as Hdt.
  unfold totals_ok. simpl.
  unfold tstep in Hst. destruct (t_pc t) eqn:E; repeat case_match; try discriminate;
    injection Hst as <- <-; cbv [counted is_done goto] in *; simpl in *; rewrite ?E in *; simpl in *.
  all: try (split; [rewrite Hc; f_equal; lia | rewrite Ht; f_equal; lia]).
  - split; [| rewrite Ht; f_equal; lia].
    rewrite Hc, wrap64_add_l. f_equal. lia.
  - split; [rewrite Hc; f_equal; lia |].
    rewrite Ht, wrap64_add_l. f_equal. lia.
Qed.

Lemma rw_reach_totals c c' :
  rtc step c c' -> totals_ok c -> totals_ok c' /\ t_elapsed <$> snd c' = t_elapsed <$> snd c.
Proof.
  induction 1 as [c | c1 c2 c3 H12 H23 IH]; intros Hok; [auto |].
  destruct (rw_step_totals _ _ H12 Hok) as [Hok2 He2].
  destruct (IH Hok2) as [Hok3 He3]. split; [exact Hok3 | congruence].
Qed.

Lemma rw_totals_init combined calls : totals_ok (init combined calls).
Proof.
  pose proof (rw_init_pc combined calls) as Hpc.
  assert (H1 : cnt counted (snd (init combined calls)) = 0%nat).
  { apply rw_cnt_zero. eapply Forall_impl; [exact Hpc |]. intros t Ht. unfold counted. rewrite Ht. reflexivity. }
  assert (H2 : done_time (snd (init combined calls)) = 0).
  { revert Hpc. generalize (snd (init combined calls)).
    induction 1 as [| t ts Ht _ IH]; [reflexivity |]. simpl. unfold is_done. rewrite Ht, IH. reflexivity. }
  unfold totals_ok. rewrite H1, H2. split; reflexivity.
Qed.

Lemma rw_init_elapsed combined calls : t_elapsed <$> snd (init combined calls) = snd <$> calls.
Proof. induction calls as [| c calls IH]; [reflexivity |]. simpl. f_equal. exact IH. Qed.

Lemma rw_all_done ts :
  Forall (fun t => is_done t = true) ts ->
  cnt counted ts = length ts /\ done_time ts = foldr Z.add 0 (t_elapsed <$> ts).
Proof.
  induction 1 as [| t ts Ht _ [IH1 IH2]]; [auto |]. simpl. rewrite IH1, IH2, Ht.
  unfold is_done in Ht. unfold counted. destruct (t_pc t); try discriminate. split; reflexivity.
Qed.

Lemma rw_run_schedule_rtc sched : forall c c',
  run_schedule sched c = Some c' -> rtc step c c'.
Proof.
  induction sched as [| i sched IH]; intros [w ts] c' H; simpl in H.
  - injection H as <-. apply rtc_refl.
  - destruct (ts !! i) as [t |] eqn:Hi; [| discriminate].
    destruct (tstep w t) as [[w' t'] |] eqn:Ht; [| discriminate].
    eapply rtc_l; [econstructor; eauto | apply IH; exact H].
Qed.

(** Concurrent [Add] calls under [sync.RWMutex] never deadlock: in every
    configuration they reach in which some call has not returned, some
    call can take a step. *)
Theorem RW_Add_no_deadlock (combined : bool) (calls : list (string * Z)) (c : config) :
  rtc step (init combined calls) c ->
  (exists i t, snd c !! i = Some t /\ is_done t = false) ->
  exists c', step c c'.
Proof.
  intros Hr Hnd. apply rw_progress; [| exact Hnd].
  exact (rw_reach_inv _ _ Hr (rw_inv_init combined calls)).
Qed.

(** Three calls on a new category: the first has announced itself as
    writer and waits for the second, still reading; the third is blocked
    in [RLock] behind the writer. The reader can move. *)
Lemma RW_Add_no_deadlock_witness :
  let calls := [("read"%string, 1); ("read"%string, 2); ("read"%string, 3)] in
  let sched := [0; 1; 0; 0; 0; 2]%nat in
  exists c,
    run_schedule sched (init false calls) = Some c
    /\ t_pc <$> snd c = [LockWait; Lookup1; RWait 0]
    /\ exists c', step c c'.
Proof.
  intros calls sched.
  destruct (run_schedule sched (init false calls)) as [c |] eqn:E; [| vm_compute in E; discriminate].
  exists c. split; [reflexivity |].
  split; [vm_compute in E; injection E as <-; reflexivity |].
  apply (RW_Add_no_deadlock false calls c).
  - apply (rw_run_schedule_rtc sched). exact E.
  - exists 0%nat. vm_compute in E. injection E as <-. eexists. split; reflexivity.
Defined.

(** From every configuration reached by concurrent [Add] calls, the calls
    can go on until all of them have returned. *)
Theorem RW_Add_completes (combined : bool) (calls : list (string * Z)) (c : config) :
  rtc step (init combined calls) c ->
  exists c', rtc step c c' /\ Forall (fun t => is_done t = true) (snd c').
Proof.
  intros Hr. apply rw_finish. exact (rw_reach_inv _ _ Hr (rw_inv_init combined calls)).
Qed.

(** The blocked configuration above can still run to the end. *)
Lemma RW_Add_completes_witness :
  let calls := [("read"%string, 1); ("read"%string, 2); ("read"%string, 3)] in
  let sched := [0; 1; 0; 0; 0; 2]%nat in
  exists c,
    run_schedule sched (init false calls) = Some c
    /\ exists c', rtc step c c' /\ Forall (fun t => is_done t = true) (snd c').
Proof.
  intros calls sched.
  destruct (run_schedule sched (init false calls)) as [c |] eqn:E; [| vm_compute in E; discriminate].
  exists c. split; [reflexivity |].
  apply (RW_Add_completes false calls c). apply (rw_run_schedule_rtc sched). exact E.
Defined.

(** Concurrent [Add] calls lose no update of the atomic totals: at every
    moment [totalCount] is the number of calls past line 97 and
    [totalTime] the summed durations of the calls past line 98, with int64
    wrap-around; once all calls return, they cover every call. *)
Theorem RW_Add_totals (combined : bool) (calls : list (string * Z)) (w : world) (ts : list thread) :
  rtc step (init combined calls) (w, ts) ->
  w_totalCount w = wrap64 (Z.of_nat (cnt counted ts))
  /\ w_totalTime w = wrap64 (done_time ts)
  /\ (Forall (fun t => is_done t = true) ts ->
      w_totalCount w = wrap64 (Z.of_nat (length calls))
      /\ w_totalTime w = wrap64 (foldr Z.add 0 (snd <$> calls))).
Proof.
  intros Hr.
  destruct (rw_reach_totals _ _ Hr (rw_totals_init combined calls)) as [[Hc Ht] He].
  rewrite rw_init_elapsed in He. simpl in Hc, Ht, He.
  split; [exact Hc |]. split; [exact Ht |].
  intros Hd. destruct (rw_all_done ts Hd) as [E1 E2].
  rewrite Hc, Ht, E1, E2, He. split; [| reflexivity].
  f_equal. f_equal. rewrite <- (length_fmap t_elapsed ts), He, length_fmap. reflexivity.
Qed.

(** Two calls on two new categories, the second creating its histogram
    while the first is between [Unlock] and [hist.Add]. *)
Lemma RW_Add_totals_witness :
  let calls := [("read"%string, 1000); ("write"%string, 2000)] in
  let sched := [0; 1; 0; 1; 0; 1; 0; 0; 0; 0; 0; 1; 1; 1; 1; 1; 1; 1; 1; 1; 0; 0; 0; 0]%nat in
  exists w ts,
    run_schedule sched (init false calls) = Some (w, ts)
    /\ Forall (fun t => is_done t = true) ts
    /\ w_totalCount w = 2 /\ w_totalTime w = 3000.
Proof.
  intros calls sched.
  destruct (run_schedule sched (init false calls)) as [[w ts] |] eqn:E; [| vm_compute in E; discriminate].
  exists w, ts. split; [reflexivity |].
  assert (Hd : Forall (fun t => is_done t = true) ts)
    by (vm_compute in E; injection E as <- <-; repeat constructor).
  split; [exact Hd |].
  destruct (RW_Add_totals false calls w ts (rw_run_schedule_rtc sched _ _ E)) as (_ & _ & Hall).
  destruct (Hall Hd) as [-> ->]. split; reflexivity.
Defined.

End RWConcurrentFacts.
